(** * bctl: discovery / connect orchestration of [bluetooth/main.go]

    A shallow embedding of the Go program.  The goroutine started by
    [Bctl.Discover], the [sync.Once] gate around the scan's stop function,
    [Bctl.Wait], [Bctl.connect] and the retry loop of [Bctl.Connect] are
    translated into executable definitions.  What the program receives from
    the outside (D-Bus answers, the order in which the Go runtime schedules
    goroutines and resolves a [select]) is an explicit input of the model. *)

From Stdlib Require Import List String Ascii Bool Arith Lia NArith.
From Stdlib Require Import Strings.Byte.
Import ListNotations.
Open Scope string_scope.
Open Scope list_scope.

(** ** Errors, results and the log *)

(** Go [error] values: [errors.New msg] and [fmt.Errorf("prefix: %w", err)]. *)
Inductive error : Type :=
| ErrNew (msg : string)
| ErrWrap (prefix : string) (cause : error).

Fixpoint Error (e : error) : string :=
  match e with
  | ErrNew msg => msg
  | ErrWrap prefix cause => (prefix ++ ": " ++ Error cause)%string
  end.

(** A Go pair [(value, err)] with the usual convention. *)
Inductive result (A : Type) : Type :=
| Ok (a : A)
| Err (e : error).
Arguments Ok {A} a.
Arguments Err {A} e.

Inductive Level : Type := InfoLevel | TraceLevel.

(** One logrus entry: level, message, and the [WithError] / [WithField]
    decorations the program uses. *)
Record Entry : Type := mkEntry {
  level : Level;
  message : string;
  with_error : option error;
  with_retry : option N
}.

Definition Info (msg : string) : Entry := mkEntry InfoLevel msg None None.
Definition Trace (msg : string) : Entry := mkEntry TraceLevel msg None None.
Definition WithError_Trace (e : error) (msg : string) : Entry :=
  mkEntry TraceLevel msg (Some e) None.

(** ** The Go [select] statement

    A [select] picks, among the cases that can proceed, one by uniform
    pseudo-random choice; [pick] is the runtime's draw.  With no case ready
    the statement blocks ([None]). *)
Definition go_select {C : Type} (ready : list C) (pick : nat) : option C :=
  nth_error ready (pick mod List.length ready).

(** ** Peer addresses

    [bluetooth.MAC] is [[6]byte], least significant octet first. *)
Module Address.

Record MAC : Type := mkMAC {
  m0 : byte; m1 : byte; m2 : byte; m3 : byte; m4 : byte; m5 : byte
}.

(** Modelled from the spec: [bluetooth.MAC.String] belongs to the tinygo
    bluetooth package, outside src/.  It renders the canonical form, six
    colon-separated hex octets, most significant octet first, with the
    package's digit table "0123456789ABCDEF". *)
Definition hexDigit : string := "0123456789ABCDEF".

Definition hex_char (n : N) : ascii :=
  match String.get (N.to_nat n) hexDigit with
  | Some c => c
  | None => "0"%char
  end.

Definition octet_string (b : byte) (k : string) : string :=
  let c := Byte.to_N b in
  String (hex_char (N.shiftr c 4)) (String (hex_char (N.land c 15)) k).

Definition MAC_String (mac : MAC) : string :=
  octet_string (m5 mac) (String ":"
  (octet_string (m4 mac) (String ":"
  (octet_string (m3 mac) (String ":"
  (octet_string (m2 mac) (String ":"
  (octet_string (m1 mac) (String ":"
  (octet_string (m0 mac) ""))))))))))%char.





End Address.
Export Address.

(** ** The program's state *)

(** [device.Device1]: only [GetAddress] is used, and its answer comes from
    BlueZ. *)
Record Device1 : Type := mkDevice1 {
  GetAddress : result string
}.

(** One value received from the [devices] channel, together with what
    [device.NewDevice1 gotDev.Path] answers for it. *)
Record DeviceDiscovered : Type := mkDiscovered {
  Path : string;
  NewDevice1 : result Device1
}.

(** [adapter.Adapter1], as far as the program looks at it. *)
Record Adapter1 : Type := mkAdapter1 {
  GetAdapterID : result string
}.

Record Bctl : Type := mkBctl {
  deviceMAC : MAC;
  adapter : Adapter1
}.

(** What the scanner and the gate do to the outside, in the order it
    happens: log lines, calls of the stop function [api.Discover] returned,
    and [close(done)]. *)
Inductive effect : Type :=
| EffLog (e : Entry)
| EffStop
| EffCloseDone.

(** Where the goroutine of [Discover] stands. *)
Inductive pc : Type :=
| PcStart          (* before [logrus.Info("discovery started")] *)
| PcRange          (* at [for gotDev := range devices] *)
| PcDeferCancel    (* leaving the function: [defer cancelOnce()] is next *)
| PcDeferClose     (* then [defer close(done)] *)
| PcExited.

Record sys : Type := mkSys {
  devices : list DeviceDiscovered;  (* values the channel still delivers *)
  devices_closed : bool;            (* the channel is closed after them *)
  once_done : bool;                 (* the flag of [var once sync.Once] *)
  at_pc : pc;
  received : nat;                   (* values taken from [devices] so far *)
  trace : list effect
}.

Definition emit (e : effect) (st : sys) : sys :=
  mkSys (devices st) (devices_closed st) (once_done st) (at_pc st)
        (received st) (trace st ++ [e]).

Definition logrus (e : Entry) (st : sys) : sys := emit (EffLog e) st.

Definition goto (p : pc) (st : sys) : sys :=
  mkSys (devices st) (devices_closed st) (once_done st) p
        (received st) (trace st).

Definition set_once_done (st : sys) : sys :=
  mkSys (devices st) (devices_closed st) true (at_pc st)
        (received st) (trace st).

Definition receive (rest : list DeviceDiscovered) (st : sys) : sys :=
  mkSys rest (devices_closed st) (once_done st) (at_pc st)
        (S (received st)) (trace st).

Definition is_stop (e : effect) : bool :=
  match e with EffStop => true | _ => false end.
Definition is_close (e : effect) : bool :=
  match e with EffCloseDone => true | _ => false end.

Definition count {A : Type} (p : A -> bool) (l : list A) : nat :=
  List.length (filter p l).

Definition stop_calls (st : sys) : nat := count is_stop (trace st).
Definition done_closes (st : sys) : nat := count is_close (trace st).

(** ** The cancellation gate *)
Module Gate.

(** The stop function returned by [api.Discover]. *)
Definition cancel (st : sys) : sys := emit EffStop st.

(** [once.Do(f)]: the mutex of [sync.Once] makes the test, the call and the
    store one atomic action with respect to every other caller. *)
Definition Once_Do (f : sys -> sys) (st : sys) : sys :=
  if once_done st then st else set_once_done (f st).

Definition cancelOnce (st : sys) : sys := Once_Do cancel st.

End Gate.
Export Gate.

(** ** The discovery scanner *)
Module Scanner.

(** [deviceAddr == cli.deviceMAC.String()] *)
Definition is_match (cli : Bctl) (deviceAddr : string) : bool :=
  String.eqb deviceAddr (MAC_String (deviceMAC cli)).

(** The body of [for gotDev := range devices] for one received value. *)
Definition loop_body (cli : Bctl) (gotDev : DeviceDiscovered) (st : sys) : sys :=
  let st := logrus (Trace ("scanned device" ++ Path gotDev)) st in
  match NewDevice1 gotDev with
  | Err err => logrus (WithError_Trace err "create device by dbus path") st
  | Ok d =>
      match GetAddress d with
      | Err err => logrus (WithError_Trace err "get device address failed") st
      | Ok deviceAddr =>
          if is_match cli deviceAddr
          then goto PcDeferCancel (logrus (Info "expected device found") st)
          else st
      end
  end.

(** One atomic action of the goroutine.  At [PcRange] with nothing to
    receive and the channel still open the goroutine is blocked and the
    state does not change. *)
Definition scanner_step (cli : Bctl) (st : sys) : sys :=
  match at_pc st with
  | PcStart => goto PcRange (logrus (Info "discovery started") st)
  | PcRange =>
      match devices st with
      | gotDev :: rest => loop_body cli gotDev (receive rest st)
      | [] => if devices_closed st then goto PcDeferCancel st else st
      end
  | PcDeferCancel => goto PcDeferClose (cancelOnce st)
  | PcDeferClose => goto PcExited (emit EffCloseDone st)
  | PcExited => st
  end.

(** The channel [api.Discover] hands out. *)
Record Stream : Type := mkStream {
  values : list DeviceDiscovered;
  closed : bool
}.

Definition started (s : Stream) : sys :=
  mkSys (values s) (closed s) false PcStart 0 [].

(** [Bctl.Discover]: on success the goroutine exists (at [PcStart]) and the
    caller holds [cancelOnce]. *)
Definition Discover (api_Discover : result Stream) : result sys :=
  match api_Discover with
  | Err err => Err (ErrWrap "discover devices" err)
  | Ok s => Ok (started s)
  end.

(** Who acts next: the goroutine, or some holder of the cancel capability
    calling it. *)
Inductive actor : Type := Scanner | Caller.

Definition is_scanner (a : actor) : bool :=
  match a with Scanner => true | Caller => false end.
Definition is_caller (a : actor) : bool :=
  match a with Scanner => false | Caller => true end.

Definition step (cli : Bctl) (st : sys) (a : actor) : sys :=
  match a with
  | Scanner => scanner_step cli st
  | Caller => cancelOnce st
  end.

(** An execution under a schedule: any interleaving of the goroutine's
    actions with calls of the cancel capability. *)
Definition run (cli : Bctl) (sched : list actor) (st : sys) : sys :=
  fold_left (step cli) sched st.

(** The address an event resolves to is the target. *)
Definition carries_target (cli : Bctl) (ev : DeviceDiscovered) : bool :=
  match NewDevice1 ev with
  | Ok d =>
      match GetAddress d with
      | Ok deviceAddr => is_match cli deviceAddr
      | Err _ => false
      end
  | Err _ => false
  end.

(** Creating the handle or reading the address failed. *)
Definition resolution_error (ev : DeviceDiscovered) : option error :=
  match NewDevice1 ev with
  | Err err => Some err
  | Ok d => match GetAddress d with Err err => Some err | Ok _ => None end
  end.

End Scanner.
Export Scanner.

(** ** The wait barrier *)
Module Barrier.

(** A [context.Context] as the program sees it: [ctx.Err()] is [nil] until
    [ctx.Done()] is closed and the cancellation error afterwards. *)
Record Context : Type := mkContext {
  ctx_Err : option error
}.

Definition ctx_Done (ctx : Context) : bool :=
  match ctx_Err ctx with Some _ => true | None => false end.

(** [cli.discoveryDone] can be received from once [done] is closed. *)
Definition discoveryDone (st : sys) : bool := Nat.ltb 0 (done_closes st).

Inductive wait_case : Type := WaitCtxDone | WaitDiscoveryDone.

Definition wait_ready (ctx : Context) (st : sys) : list wait_case :=
  (if ctx_Done ctx then [WaitCtxDone] else []) ++
  (if discoveryDone st then [WaitDiscoveryDone] else []).

Inductive wait_result : Type :=
| WaitBlocked                       (* no case can proceed yet *)
| WaitReturned (err : option error).

(** The [select] of [Bctl.Wait], evaluated in the state [st] of the
    scanner. *)
Definition wait_select (ctx : Context) (pick : nat) (st : sys) : option wait_case :=
  go_select (wait_ready ctx st) pick.

(** [Bctl.Wait]; the state is handed back as the call leaves it. *)
Definition Wait (ctx : Context) (pick : nat) (st : sys) : wait_result * sys :=
  match wait_select ctx pick st with
  | Some WaitCtxDone => (WaitReturned (ctx_Err ctx), st)
  | Some WaitDiscoveryDone => (WaitReturned None, st)
  | None => (WaitBlocked, st)
  end.

End Barrier.
Export Barrier.

(** ** One connection attempt *)
Module Attempt.

(** [device.Device1] of go-bluetooth, as answered by BlueZ for one attempt. *)
Record Device : Type := mkDevice {
  GetPaired : result bool;
  Pair : option error;
  Connect : option error
}.

(** What an attempt does, in order. *)
Inductive action : Type :=
| ReqNewDevice (adapterID address : string)
| ReqGetPaired
| ReqPair
| ReqConnect
| ActLog (e : Entry).

(** Error-or-value computations that record their actions. *)
Definition M (A : Type) : Type := list action -> result A * list action.

Definition ret {A : Type} (a : A) : M A := fun tr => (Ok a, tr).

Definition bind {A B : Type} (m : M A) (k : A -> M B) : M B :=
  fun tr =>
    match m tr with
    | (Ok a, tr') => k a tr'
    | (Err e, tr') => (Err e, tr')
    end.

Notation "x <- m ;; k" := (bind m (fun x => k))
  (at level 61, m at next level, right associativity).

(** A request to the Bluetooth stack and its answer. *)
Definition request {A : Type} (a : action) (answer : result A) : M A :=
  fun tr => (answer, tr ++ [a]).

Definition of_error (e : option error) : result unit :=
  match e with Some err => Err err | None => Ok tt end.

(** [if err != nil { return fmt.Errorf(prefix + ": %w", err) }] *)
Definition or_return {A : Type} (prefix : string) (m : M A) : M A :=
  fun tr =>
    match m tr with
    | (Ok a, tr') => (Ok a, tr')
    | (Err e, tr') => (Err (ErrWrap prefix e), tr')
    end.

Definition log (e : Entry) : M unit := fun tr => (Ok tt, tr ++ [ActLog e]).

(** [Bctl.connect]; [NewDevice] stands for [device.NewDevice]. *)
Definition connect_body (cli : Bctl)
    (NewDevice : string -> string -> result Device) (adapterID : string) : M unit :=
  let address := MAC_String (deviceMAC cli) in
  d <- or_return "get device mac"
         (request (ReqNewDevice adapterID address) (NewDevice adapterID address)) ;;
  paired <- or_return "check already paired" (request ReqGetPaired (GetPaired d)) ;;
  _ <- (if negb paired
        then or_return "pair with device" (request ReqPair (of_error (Pair d)))
        else ret tt) ;;
  _ <- or_return "connect to device" (request ReqConnect (of_error (Connect d))) ;;
  log (Info "device connected successfully").

(** The Go view: the returned [error] ([None] is [nil]) and the actions. *)
Definition connect (cli : Bctl)
    (NewDevice : string -> string -> result Device) (adapterID : string)
    : option error * list action :=
  match connect_body cli NewDevice adapterID [] with
  | (Ok _, tr) => (None, tr)
  | (Err e, tr) => (Some e, tr)
  end.

End Attempt.
Export Attempt.

(** ** The connection orchestrator *)
Module Orchestrator.

(** [3 * time.Second], in nanoseconds. *)
Definition retryInterval : N := 3 * 1000000000.

Inductive select_case : Type := CaseCtxDone | CaseTick | CaseOnce.

(** The three channels of the [select]: [ctx.Done()] (with [ctx.Err()]),
    the one-slot buffer of [tick.C] and the one-slot buffer of [once]. *)
Record chans : Type := mkChans {
  ctx : Context;
  tick_C : bool;
  once : bool
}.

(** What happens around one turn of the [for] loop. *)
Record Iteration : Type := mkIteration {
  cancelled : option error;  (* the context was cancelled since the last select *)
  ticked : bool;             (* the ticker delivered since the last select *)
  pick : nat;                (* the runtime's draw among the ready cases *)
  wake : option error;       (* when the select blocks: the ticker fires
                                first ([None]) or the context is cancelled
                                first *)
  NewDevice : string -> string -> result Device
}.

Definition arrive (it : Iteration) (ch : chans) : chans :=
  mkChans (if ctx_Done (ctx ch) then ctx ch else mkContext (cancelled it))
          (tick_C ch || ticked it)
          (once ch).

Definition ready (ch : chans) : list select_case :=
  (if ctx_Done (ctx ch) then [CaseCtxDone] else []) ++
  (if tick_C ch then [CaseTick] else []) ++
  (if once ch then [CaseOnce] else []).

(** The [select] of the loop: the case taken, whether the statement had to
    wait for it, and the channels afterwards. *)
Definition select_next (it : Iteration) (ch : chans) : select_case * bool * chans :=
  match go_select (ready ch) (pick it) with
  | Some CaseCtxDone => (CaseCtxDone, false, ch)
  | Some CaseTick => (CaseTick, false, mkChans (ctx ch) false (once ch))
  | Some CaseOnce => (CaseOnce, false, mkChans (ctx ch) (tick_C ch) false)
  | None =>
      match wake it with
      | None => (CaseTick, true, ch)
      | Some e => (CaseCtxDone, true, mkChans (mkContext (Some e)) (tick_C ch) (once ch))
      end
  end.

(** One performed [cli.connect]. *)
Record Attempted : Type := mkAttempted {
  trigger : select_case;
  waited : bool;
  actions : list action;
  outcome : option error
}.

Inductive status : Type :=
| Returned (err : option error)
| Retrying.                   (* the script ends with the loop still running *)

Record Run : Type := mkRun {
  result_of : status;
  attempts : list Attempted;
  logged : list Entry
}.

Definition retry_message (err : error) : Entry :=
  mkEntry InfoLevel "try to connect" (Some err) (Some retryInterval).

Definition is_retry_message (e : Entry) : bool :=
  String.eqb (message e) "try to connect".

(** The [for { select ... }] loop of [Bctl.Connect]. *)
Fixpoint retry_loop (cli : Bctl) (adapterID : string) (script : list Iteration)
    (ch : chans) (done : list Attempted) (lg : list Entry) : Run :=
  match script with
  | [] => mkRun Retrying done lg
  | it :: rest =>
      match select_next it (arrive it ch) with
      | (CaseCtxDone, _, ch') => mkRun (Returned (ctx_Err (ctx ch'))) done lg
      | (c, w, ch') =>
          let (err, acts) := connect cli (NewDevice it) adapterID in
          let done' := done ++ [mkAttempted c w acts err] in
          match err with
          | Some e => retry_loop cli adapterID rest ch' done' (lg ++ [retry_message e])
          | None => mkRun (Returned None) done' lg
          end
      end
  end.

(** [Bctl.Connect]: the ticker is created, [once] is filled, the adapter
    identifier is read, then the loop runs. *)
Definition Connect (cli : Bctl) (ctx0 : Context) (script : list Iteration) : Run :=
  let ch := mkChans ctx0 false true in
  match GetAdapterID (adapter cli) with
  | Err err => mkRun (Returned (Some (ErrWrap "get adapter id" err))) [] []
  | Ok adapterID => retry_loop cli adapterID script ch [] []
  end.

End Orchestrator.
Export Orchestrator.

(** ** Notions used in the statements *)

(** The gate's flag and the number of stop calls agree. *)
Definition gate_ok (st : sys) : Prop :=
  stop_calls st = if once_done st then 1 else 0.

(** [done] is closed only by the goroutine's last action, and the
    goroutine has been through the gate by then. *)
Definition pc_ok (st : sys) : Prop :=
  match at_pc st with
  | PcStart | PcRange | PcDeferCancel => done_closes st = 0
  | PcDeferClose => done_closes st = 0 /\ once_done st = true
  | PcExited => done_closes st = 1 /\ once_done st = true
  end.

(** Every [close(done)] in a trace has a stop call before it. *)
Definition stop_precedes_close (tr : list effect) : Prop :=
  forall pre post, tr = pre ++ EffCloseDone :: post -> In EffStop pre.

Definition Inv (st : sys) : Prop :=
  gate_ok st /\ pc_ok st /\ stop_precedes_close (trace st).

(** The part of the state the goroutine's control depends on; calls of the
    cancel capability do not touch it. *)
Definition view : Type := (list DeviceDiscovered * bool * pc * nat)%type.

Definition view_of (st : sys) : view :=
  (devices st, devices_closed st, at_pc st, received st).

Definition scan_next (cli : Bctl) (v : view) : view :=
  match v with
  | (ds, c, p, r) =>
      match p with
      | PcStart => (ds, c, PcRange, r)
      | PcRange =>
          match ds with
          | ev :: rest =>
              (rest, c, if carries_target cli ev then PcDeferCancel else PcRange, S r)
          | [] => (ds, c, if c then PcDeferCancel else PcRange, r)
          end
      | PcDeferCancel => (ds, c, PcDeferClose, r)
      | PcDeferClose => (ds, c, PcExited, r)
      | PcExited => v
      end
  end.

(** The number of events in front of the first one that resolves to the
    target (all of them when there is none). *)
Fixpoint first_target (cli : Bctl) (evs : list DeviceDiscovered) : nat :=
  match evs with
  | [] => 0
  | ev :: rest => if carries_target cli ev then 0 else S (first_target cli rest)
  end.

(** [cli.deviceMAC.String()], the address every request is about. *)
Definition target_address (cli : Bctl) : string := MAC_String (deviceMAC cli).

(** The requests of an attempt, without its log line. *)
Definition requests_of (acts : list action) : list action :=
  filter (fun a => match a with ActLog _ => false | _ => true end) acts.

(** The retry messages a list of attempts gives rise to: one per failure. *)
Definition retry_messages (l : list Attempted) : list Entry :=
  flat_map (fun a => match outcome a with
                     | Some e => [retry_message e]
                     | None => []
                     end) l.

(** An iteration during which the context stays live. *)
Definition undisturbed (it : Iteration) : Prop :=
  cancelled it = None /\ wake it = None.

(** The textual address of the specification's scenario and its target. *)
Definition scenario_target : MAC :=
  mkMAC xff xee xdd xcc xbb xaa.

Definition scenario_cli : Bctl :=
  mkBctl scenario_target (mkAdapter1 (Ok "hci0")).

Definition discovered (path address : string) : DeviceDiscovered :=
  mkDiscovered path (Ok (mkDevice1 (Ok address))).

(** The specification's scenario: two other peers, then the target. *)
Definition scenario_events : list DeviceDiscovered :=
  [ discovered "/org/bluez/hci0/dev_11_22_33_44_55_66" "11:22:33:44:55:66";
    discovered "/org/bluez/hci0/dev_77_88_99_AA_BB_CC" "77:88:99:AA:BB:CC";
    discovered "/org/bluez/hci0/dev_AA_BB_CC_DD_EE_FF" "AA:BB:CC:DD:EE:FF" ].

(** Events whose resolution fails, at either of the two steps. *)
Definition unreachable_event : DeviceDiscovered :=
  mkDiscovered "/org/bluez/hci0/dev_00_00_00_00_00_01"
               (Err (ErrNew "object not found")).

Definition nameless_event : DeviceDiscovered :=
  mkDiscovered "/org/bluez/hci0/dev_00_00_00_00_00_02"
               (Ok (mkDevice1 (Err (ErrNew "property Address missing")))).

(** The goroutine runs while the caller's deferred [cancel()] and its
    explicit [cancel()] come in between. *)
Definition scenario_schedule : list actor :=
  [Scanner; Scanner; Caller; Scanner; Scanner; Scanner; Caller; Scanner].

(** [context.Canceled]. *)
Definition Canceled : error := ErrNew "context canceled".

(** The specification's retry scenario: the pairing query fails once
    ("adapter busy"), then pairing succeeds and the connect request fails
    ("peripheral not reachable"), then the connect request succeeds. *)
Definition busy_device : Device :=
  mkDevice (Err (ErrNew "adapter busy")) None None.
Definition unreachable_device : Device :=
  mkDevice (Ok false) None (Some (ErrNew "peripheral not reachable")).
Definition reachable_device : Device :=
  mkDevice (Ok true) None None.

Definition on_tick (d : Device) : Iteration :=
  mkIteration None false 0 None (fun _ _ => Ok d).

Definition scenario_script : list Iteration :=
  [on_tick busy_device; on_tick unreachable_device; on_tick reachable_device].

(** The runtime's draw falls on the second ready case. *)
Definition second_case (d : Device) : Iteration :=
  mkIteration None false 1 None (fun _ _ => Ok d).

(** ** The command's action *)
Module Main.

(** [Bctl.Init]: the tool carries the address the [mac] flag stored and,
    on success, the default adapter. *)
Definition Init (mac : MAC) (GetDefaultAdapter : result Adapter1) : result Bctl :=
  match GetDefaultAdapter with
  | Err err => Err (ErrWrap "get default adapter" err)
  | Ok a => Ok (mkBctl mac a)
  end.

(** The context as the loop of [Connect] leaves it: cancellation is
    permanent, so this is what [ctx.Done()] and [ctx.Err()] report to
    whoever looks next. *)
Fixpoint retry_loop_ctx (cli : Bctl) (adapterID : string)
    (script : list Iteration) (ch : chans) : Context :=
  match script with
  | [] => ctx ch
  | it :: rest =>
      match select_next it (arrive it ch) with
      | (CaseCtxDone, _, ch') => ctx ch'
      | (_, _, ch') =>
          match fst (connect cli (NewDevice it) adapterID) with
          | Some _ => retry_loop_ctx cli adapterID rest ch'
          | None => ctx ch'
          end
      end
  end.

Definition Connect_ctx (cli : Bctl) (ctx0 : Context) (script : list Iteration)
    : Context :=
  match GetAdapterID (adapter cli) with
  | Err _ => ctx0
  | Ok adapterID => retry_loop_ctx cli adapterID script (mkChans ctx0 false true)
  end.

(** What can happen while the main goroutine is blocked in [Wait]: the
    scanner goroutine takes a step, or the context is cancelled. *)
Inductive wait_event : Type :=
| Progress
| Cancelled (e : error).

(** [Wait] as a blocking call: the select is evaluated, and as long as no
    case is ready the caller sleeps through the next event. *)
Fixpoint Wait_blocking (cli : Bctl) (ctx : Context) (pick : nat)
    (events : list wait_event) (st : sys) : wait_result * sys :=
  match Wait ctx pick st with
  | (WaitBlocked, _) =>
      match events with
      | [] => (WaitBlocked, st)
      | Progress :: later => Wait_blocking cli ctx pick later (scanner_step cli st)
      | Cancelled e :: later => Wait_blocking cli (mkContext (Some e)) pick later st
      end
  | returned => returned
  end.

(** Everything the action receives from outside. *)
Record World : Type := mkWorld {
  w_mac : MAC;                          (* [tool.deviceMAC], set by the flag *)
  w_adapter : result Adapter1;          (* [adapter.GetDefaultAdapter()] *)
  w_discover : result Stream;           (* [api.Discover(...)] *)
  w_ctx : Context;                      (* the context on entry of [Connect] *)
  w_script : list Iteration;            (* the turns of the loop of [Connect] *)
  w_during_connect : nat;               (* goroutine steps while [Connect] runs *)
  w_pick : nat;                         (* the draw of the select of [Wait] *)
  w_waiting : list wait_event;          (* events while [Wait] is blocked *)
  w_before_release : nat                (* goroutine steps before the deferred
                                           [cancel()] *)
}.

Inductive exit : Type :=
| Exit (err : option error) (scan : option sys)  (* the action has returned *)
| InConnect (scan : sys)                         (* still in the retry loop *)
| InWait (err : option error) (scan : sys).      (* blocked in the deferred
                                                    [Wait], about to return
                                                    [err] *)

(** The two deferred calls, last registered first: [tool.Wait(ctx.Context)],
    then [cancel()]. *)
Definition deferred (cli : Bctl) (w : World) (ctx1 : Context)
    (err : option error) (st : sys) : exit :=
  match Wait_blocking cli ctx1 (w_pick w) (w_waiting w) st with
  | (WaitBlocked, st') => InWait err st'
  | (WaitReturned _, st') =>
      Exit err (Some (cancelOnce
                        (run cli (repeat Scanner (w_before_release w)) st')))
  end.

(** The [Action] of the command ([main]), after flag handling: [Init],
    [Discover], the two [defer]s, [Connect], and on success the explicit
    [cancel()].  The log level set by the [debug] flag is not modelled. *)
Definition Action (w : World) : exit :=
  match Init (w_mac w) (w_adapter w) with
  | Err err => Exit (Some err) None
  | Ok cli =>
      match Discover (w_discover w) with
      | Err err => Exit (Some err) None
      | Ok st0 =>
          let st1 := run cli (repeat Scanner (w_during_connect w)) st0 in
          let ctx1 := Connect_ctx cli (w_ctx w) (w_script w) in
          match result_of (Connect cli (w_ctx w) (w_script w)) with
          | Retrying => InConnect st1
          | Returned (Some err) => deferred cli w ctx1 (Some err) st1
          | Returned None => deferred cli w ctx1 None (cancelOnce st1)
          end
      end
  end.

End Main.
Export Main.

(** ** Further notions used in the statements *)

Definition is_found (e : effect) : bool :=
  match e with
  | EffLog l => String.eqb (message l) "expected device found"
  | _ => false
  end.

(** The trace line the goroutine writes for every value it receives:
    [logrus.Trace("scanned device", gotDev.Path)], the only trace-level
    entry without an attached error. *)
Definition scanned_line (ev : DeviceDiscovered) : effect :=
  EffLog (Trace ("scanned device" ++ Path ev)).

Definition is_scanned (e : effect) : bool :=
  match e with
  | EffLog l =>
      match level l, with_error l with
      | TraceLevel, None => true
      | _, _ => false
      end
  | _ => false
  end.

(** The lines an attempt leaves in the log: those [connect] writes, then,
    when it failed, the retry line of the loop. *)
Definition attempt_lines (a : Attempted) : list Entry :=
  flat_map (fun x => match x with ActLog l => [l] | _ => [] end) (actions a) ++
  match outcome a with Some e => [retry_message e] | None => [] end.

(** Everything written to the logger during a call of [Connect]. *)
Definition Connect_log (r : Run) : list Entry :=
  flat_map attempt_lines (attempts r).

(** The goroutine is past its [defer cancelOnce()]. *)
Definition past_gate (p : pc) : bool :=
  match p with PcDeferClose | PcExited => true | _ => false end.

Definition searching (p : pc) : bool :=
  match p with PcStart | PcRange => true | _ => false end.

Definition by_once (a : Attempted) : bool :=
  match trigger a with CaseOnce => true | _ => false end.

(** The cancellation errors the environment of a call of [Connect] holds:
    that of the context on entry and those arriving during the script. *)
Definition cancellations (ctx0 : Context) (script : list Iteration) : list error :=
  (match ctx_Err ctx0 with Some e => [e] | None => [] end) ++
  flat_map (fun it =>
              (match cancelled it with Some e => [e] | None => [] end) ++
              (match wake it with Some e => [e] | None => [] end)) script.


Definition success_line : action :=
  ActLog (Info "device connected successfully").

(** A world for the examples: the adapter is there, the scan starts on the
    given stream, the context is live. *)
Definition scenario_world (s : Stream) (script : list Iteration)
    (waiting : list wait_event) : World :=
  mkWorld scenario_target (Ok (mkAdapter1 (Ok "hci0"))) (Ok s)
          (mkContext None) script 2 0 waiting 0.

(** An adapter whose identifier cannot be read. *)
Definition broken_adapter : Adapter1 :=
  mkAdapter1 (Err (ErrNew "invalid adapter path")).

(** Case analysis over the answers one attempt can receive. *)
Ltac attempt_order :=
  first [ now (exists 0; left) | now (exists 1; left) | now (exists 2; left)
        | now (exists 3; left) | now (exists 2; right) ].

Ltac attempt_case :=
  intros;
  repeat match goal with
  | H : ex _ |- _ => destruct H
  | H : _ /\ _ |- _ => destruct H
  | H : Ok _ = Ok _ |- _ => injection H as H
  | H : In _ _ |- _ => cbn in H; decompose [or] H; clear H
  end;
  subst; try discriminate; try congruence; try contradiction;
  try (cbn; congruence);
  try (cbn; tauto);
  try (eexists; cbn; intuition (eauto; congruence)).

(** * Properties *)

(** ** Counting effects *)

Lemma count_app {A : Type} (p : A -> bool) (l1 l2 : list A) :
  count p (l1 ++ l2) = count p l1 + count p l2.
Proof. unfold count. now rewrite filter_app, length_app. Qed.

Lemma count_all {A : Type} (p : A -> bool) (l : list A) :
  forallb p l = true -> count p l = List.length l.
Proof.
  unfold count. induction l as [|x l IH]; [reflexivity|].
  cbn. intros H. apply andb_true_iff in H. destruct H as [Hx Hl].
  rewrite Hx. cbn. now rewrite IH.
Qed.

Lemma count_pos_In (tr : list effect) :
  0 < count is_stop tr -> In EffStop tr.
Proof.
  induction tr as [|e tr IH]; cbn; [lia|].
  destruct e; cbn; auto.
Qed.

Lemma stop_calls_emit (e : effect) (st : sys) :
  stop_calls (emit e st) = stop_calls st + (if is_stop e then 1 else 0).
Proof.
  unfold stop_calls.
  replace (trace (emit e st)) with (trace st ++ [e]) by reflexivity.
  rewrite count_app. destruct e; reflexivity.
Qed.

Lemma done_closes_emit (e : effect) (st : sys) :
  done_closes (emit e st) = done_closes st + (if is_close e then 1 else 0).
Proof.
  unfold done_closes.
  replace (trace (emit e st)) with (trace st ++ [e]) by reflexivity.
  rewrite count_app. destruct e; reflexivity.
Qed.

Lemma snoc_split {A : Type} (l pre post : list A) (x y : A) :
  l ++ [x] = pre ++ y :: post ->
  (post = [] /\ pre = l /\ x = y) \/
  (exists post', post = post' ++ [x] /\ l = pre ++ y :: post').
Proof.
  destruct (rev post) as [|z rpost] eqn:E.
  - apply (f_equal (@rev A)) in E. rewrite rev_involutive in E. cbn in E.
    subst post. intros H. left.
    apply app_inj_tail in H. intuition.
  - apply (f_equal (@rev A)) in E. rewrite rev_involutive in E. cbn in E.
    subst post. intros H. right. exists (rev rpost).
    replace (pre ++ y :: rev rpost ++ [z]) with ((pre ++ y :: rev rpost) ++ [z]) in H
      by now rewrite <- app_assoc.
    apply app_inj_tail in H. destruct H as [-> ->]. auto.
Qed.

Lemma stop_precedes_close_snoc (tr : list effect) (e : effect) :
  stop_precedes_close tr ->
  (e = EffCloseDone -> In EffStop tr) ->
  stop_precedes_close (tr ++ [e]).
Proof.
  intros Htr He pre post Heq.
  apply snoc_split in Heq. destruct Heq as [(_ & -> & ->) | (post' & _ & ->)].
  - now apply He.
  - now apply (Htr pre post').
Qed.

(** ** The invariant of every execution *)

Lemma Inv_started (s : Stream) : Inv (started s).
Proof.
  repeat split; cbn.
  intros pre post H. destruct pre; discriminate H.
Qed.

Lemma Inv_logrus (l : Entry) (st : sys) : Inv st -> Inv (logrus l st).
Proof.
  intros (Hg & Hp & Ht). unfold Inv, gate_ok, pc_ok, logrus in *.
  rewrite stop_calls_emit, done_closes_emit. cbn [is_stop is_close].
  rewrite !Nat.add_0_r.
  repeat split; try assumption.
  apply stop_precedes_close_snoc; [exact Ht | discriminate].
Qed.

Lemma Inv_receive (rest : list DeviceDiscovered) (st : sys) :
  Inv st -> Inv (receive rest st).
Proof. intros H; exact H. Qed.

Lemma Inv_cancelOnce (st : sys) : Inv st -> Inv (cancelOnce st).
Proof.
  intros (Hg & Hp & Ht). unfold cancelOnce, Once_Do, cancel.
  destruct (once_done st) eqn:Hd; [now repeat split|].
  unfold Inv, gate_ok, pc_ok in *. rewrite Hd in *.
  change (stop_calls (set_once_done (emit EffStop st)))
    with (stop_calls (emit EffStop st)).
  change (done_closes (set_once_done (emit EffStop st)))
    with (done_closes (emit EffStop st)).
  rewrite stop_calls_emit, done_closes_emit. cbn.
  repeat split.
  - lia.
  - destruct (at_pc st); intuition (try lia; try congruence).
  - apply stop_precedes_close_snoc; [exact Ht | discriminate].
Qed.

Lemma cancelOnce_sets_flag (st : sys) : once_done (cancelOnce st) = true.
Proof.
  unfold cancelOnce, Once_Do. now destruct (once_done st) eqn:Hd.
Qed.

Lemma cancelOnce_keeps_closes (st : sys) :
  done_closes (cancelOnce st) = done_closes st.
Proof.
  unfold cancelOnce, Once_Do, cancel. destruct (once_done st); [reflexivity|].
  change (done_closes (set_once_done (emit EffStop st)))
    with (done_closes (emit EffStop st)).
  rewrite done_closes_emit. cbn. lia.
Qed.

Lemma Inv_loop_body (cli : Bctl) (ev : DeviceDiscovered) (st : sys) :
  at_pc st = PcRange -> Inv st -> Inv (loop_body cli ev st).
Proof.
  intros Hpc H. unfold loop_body.
  assert (H1 : Inv (logrus (Trace ("scanned device" ++ Path ev)) st))
    by now apply Inv_logrus.
  destruct (NewDevice1 ev) as [d|err]; [|now apply Inv_logrus].
  destruct (GetAddress d) as [addr|err]; [|now apply Inv_logrus].
  destruct (is_match cli addr); [|exact H1].
  apply (Inv_logrus (Info "expected device found")) in H1.
  destruct H1 as (Hg & Hp & Ht). repeat split; try assumption.
  unfold pc_ok in *. cbn in *. rewrite Hpc in Hp. exact Hp.
Qed.

Lemma Inv_scanner_step (cli : Bctl) (st : sys) :
  Inv st -> Inv (scanner_step cli st).
Proof.
  intros H. unfold scanner_step. destruct (at_pc st) eqn:Hpc.
  - apply (Inv_logrus (Info "discovery started")) in H.
    destruct H as (Hg & Hp & Ht). repeat split; try assumption.
    unfold pc_ok in *. cbn in *. rewrite Hpc in Hp. exact Hp.
  - destruct (devices st) as [|ev rest].
    + destruct (devices_closed st); [|exact H].
      destruct H as (Hg & Hp & Ht). repeat split; try assumption.
      unfold pc_ok in *. cbn. rewrite Hpc in Hp. exact Hp.
    + apply Inv_loop_body; [exact Hpc | now apply Inv_receive].
  - assert (Hc := Inv_cancelOnce st H). destruct Hc as (Hg & Hp & Ht).
    split; [exact Hg | split; [| exact Ht]].
    unfold pc_ok.
    change (at_pc (goto PcDeferClose (cancelOnce st))) with PcDeferClose.
    change (done_closes (goto PcDeferClose (cancelOnce st)))
      with (done_closes (cancelOnce st)).
    change (once_done (goto PcDeferClose (cancelOnce st)))
      with (once_done (cancelOnce st)).
    split.
    + rewrite cancelOnce_keeps_closes. destruct H as (_ & Hp' & _).
      unfold pc_ok in Hp'. now rewrite Hpc in Hp'.
    + apply cancelOnce_sets_flag.
  - destruct H as (Hg & Hp & Ht). unfold pc_ok in Hp. rewrite Hpc in Hp.
    destruct Hp as [Hc Hd].
    unfold Inv, gate_ok, pc_ok.
    change (stop_calls (goto PcExited (emit EffCloseDone st)))
      with (stop_calls (emit EffCloseDone st)).
    change (done_closes (goto PcExited (emit EffCloseDone st)))
      with (done_closes (emit EffCloseDone st)).
    rewrite stop_calls_emit, done_closes_emit. cbn.
    unfold gate_ok in Hg.
    split; [lia | split; [split; [lia | exact Hd] |]].
    apply stop_precedes_close_snoc; [exact Ht|].
    intros _. apply count_pos_In. unfold stop_calls in Hg.
    rewrite Hd in Hg. lia.
  - exact H.
Qed.

Lemma Inv_step (cli : Bctl) (st : sys) (a : actor) :
  Inv st -> Inv (step cli st a).
Proof.
  destruct a; [apply Inv_scanner_step | apply Inv_cancelOnce].
Qed.

Lemma Inv_run (cli : Bctl) (sched : list actor) (st : sys) :
  Inv st -> Inv (run cli sched st).
Proof.
  revert st. induction sched as [|a sched IH]; intros st H; [exact H|].
  cbn. apply IH. now apply Inv_step.
Qed.

(** ** Control of the goroutine, independent of the gate *)

Lemma view_cancelOnce (st : sys) : view_of (cancelOnce st) = view_of st.
Proof. unfold cancelOnce, Once_Do. now destruct (once_done st). Qed.

Lemma view_scanner_step (cli : Bctl) (st : sys) :
  view_of (scanner_step cli st) = scan_next cli (view_of st).
Proof.
  unfold scanner_step, view_of, scan_next.
  destruct (at_pc st) eqn:Hpc; try reflexivity.
  - destruct (devices st) as [|ev rest] eqn:Hds.
    + destruct (devices_closed st) eqn:Hc; cbn; now rewrite ?Hds, ?Hpc, ?Hc.
    + unfold loop_body, carries_target.
      destruct (NewDevice1 ev) as [d|err]; cbn; [|now rewrite Hpc].
      destruct (GetAddress d) as [addr|err]; cbn; [|now rewrite Hpc].
      destruct (is_match cli addr); cbn; now rewrite ?Hpc.
  - assert (H := view_cancelOnce st). unfold view_of in H.
    injection H as H1 H2 _ H4. cbn. now rewrite H1, H2, H4.
  - now rewrite Hpc.
Qed.

Lemma view_run (cli : Bctl) (sched : list actor) (st : sys) :
  view_of (run cli sched st) =
  Nat.iter (count is_scanner sched) (scan_next cli) (view_of st).
Proof.
  revert st. induction sched as [|a sched IH]; intros st; [reflexivity|].
  cbn [run fold_left]. fold (run cli sched (step cli st a)). rewrite IH.
  destruct a; cbn [step].
  - rewrite view_scanner_step.
    change (count is_scanner (Scanner :: sched)) with (S (count is_scanner sched)).
    now rewrite Nat.iter_succ_r.
  - now rewrite view_cancelOnce.
Qed.

Lemma scan_exited (cli : Bctl) (n : nat) ds c r :
  Nat.iter n (scan_next cli) (ds, c, PcExited, r) = (ds, c, PcExited, r).
Proof.
  induction n as [|n IH]; [reflexivity | now rewrite Nat.iter_succ, IH].
Qed.

Lemma scan_leave (cli : Bctl) (n : nat) ds c r :
  Nat.iter (S (S n)) (scan_next cli) (ds, c, PcDeferCancel, r) = (ds, c, PcExited, r).
Proof.
  rewrite !Nat.iter_succ_r. cbn [scan_next]. apply scan_exited.
Qed.

Lemma scan_to_match (cli : Bctl) (pre : list DeviceDiscovered) :
  forall ev post c r n,
    forallb (fun e => negb (carries_target cli e)) pre = true ->
    carries_target cli ev = true ->
    Nat.iter (List.length pre + 3 + n) (scan_next cli)
             (pre ++ ev :: post, c, PcRange, r)
    = (post, c, PcExited, r + List.length pre + 1).
Proof.
  induction pre as [|e pre IH]; intros ev post c r n Hpre Hev.
  - cbn [List.length Nat.add app]. rewrite Nat.iter_succ_r. cbn [scan_next].
    rewrite Hev, scan_leave. f_equal. lia.
  - cbn in Hpre. apply andb_true_iff in Hpre. destruct Hpre as [He Hpre].
    apply negb_true_iff in He.
    cbn [List.length Nat.add app]. rewrite Nat.iter_succ_r. cbn [scan_next].
    rewrite He, (IH ev post c (S r) n Hpre Hev). f_equal. lia.
Qed.

Lemma scan_to_end (cli : Bctl) (ds : list DeviceDiscovered) :
  forall r n,
    forallb (fun e => negb (carries_target cli e)) ds = true ->
    Nat.iter (List.length ds + 3 + n) (scan_next cli) (ds, true, PcRange, r)
    = ([], true, PcExited, r + List.length ds).
Proof.
  induction ds as [|e ds IH]; intros r n Hds.
  - cbn [List.length Nat.add]. rewrite Nat.iter_succ_r. cbn [scan_next].
    rewrite scan_leave. f_equal. lia.
  - cbn in Hds. apply andb_true_iff in Hds. destruct Hds as [He Hds].
    apply negb_true_iff in He.
    cbn [List.length Nat.add]. rewrite Nat.iter_succ_r. cbn [scan_next].
    rewrite He, (IH (S r) n Hds). f_equal. lia.
Qed.

Lemma Discover_started (api : result Stream) (st0 : sys) :
  Discover api = Ok st0 -> exists s, api = Ok s /\ st0 = started s.
Proof.
  destruct api as [s|e]; cbn; intros H; [|discriminate].
  injection H as <-. now exists s.
Qed.

Lemma first_target_split (cli : Bctl) (evs : list DeviceDiscovered) :
  0 < count (carries_target cli) evs ->
  exists pre ev,
    evs = pre ++ ev :: skipn (S (first_target cli evs)) evs /\
    forallb (fun e => negb (carries_target cli e)) pre = true /\
    carries_target cli ev = true /\
    List.length pre = first_target cli evs.
Proof.
  induction evs as [|e evs IH]; [cbn; lia|].
  unfold count. cbn [filter first_target].
  destruct (carries_target cli e) eqn:He.
  - intros _. exists [], e. cbn. auto.
  - intros H. destruct (IH H) as (pre & ev & Heq & Hpre & Hev & Hlen).
    exists (e :: pre), ev. cbn [skipn app forallb List.length].
    rewrite He. cbn [negb andb]. repeat split; try assumption.
    + cbn [skipn] in Heq. now rewrite <- Heq.
    + now rewrite Hlen.
Qed.

Lemma count_zero_forallb {A : Type} (p : A -> bool) (l : list A) :
  count p l = 0 -> forallb (fun x => negb (p x)) l = true.
Proof.
  induction l as [|x l IH]; [reflexivity|].
  unfold count. cbn. destruct (p x); cbn; [discriminate | exact IH].
Qed.

Lemma exited_counts (st : sys) :
  Inv st -> at_pc st = PcExited -> done_closes st = 1 /\ stop_calls st = 1.
Proof.
  intros (Hg & Hp & _) Hpc. unfold pc_ok in Hp. rewrite Hpc in Hp.
  destruct Hp as [Hc Hd]. unfold gate_ok in Hg. now rewrite Hd in Hg.
Qed.

Lemma closes_at_most_once (st : sys) : Inv st -> done_closes st <= 1.
Proof.
  intros (_ & Hp & _). unfold pc_ok in Hp.
  destruct (at_pc st); intuition lia.
Qed.

Lemma view_started (s : Stream) :
  view_of (started s) = (values s, closed s, PcStart, 0).
Proof. reflexivity. Qed.

(** ** The discovery scanner *)

(** C1.  A stream in which exactly one event resolves to the target: under
    every schedule that lets the goroutine take its steps, whatever calls of
    the cancel capability are interleaved, the goroutine receives the events
    up to and including the match and no more, terminates, [done] has been
    closed exactly once and the scan's stop function has run exactly once. *)
Theorem discover_stops_at_first_match
    (cli : Bctl) (evs : list DeviceDiscovered)
    (c : bool) (st0 : sys) (sched : list actor) :
  Discover (Ok (mkStream evs c)) = Ok st0 ->
  count (carries_target cli) evs = 1 ->
  first_target cli evs + 4 <= count is_scanner sched ->
  let st := run cli sched st0 in
  at_pc st = PcExited /\
  received st = S (first_target cli evs) /\
  devices st = skipn (S (first_target cli evs)) evs /\
  done_closes st = 1 /\
  stop_calls st = 1.
Proof.
  intros Hd Hone Hsched st. cbn in Hd. injection Hd as <-.
  assert (Hinv : Inv st) by (apply Inv_run, Inv_started).
  destruct (first_target_split cli evs) as (pre & ev & Heq & Hpre & Hev & Hlen);
    [lia|].
  rewrite <- Hlen in *.
  set (post := skipn (S (List.length pre)) evs) in *. clearbody post.
  assert (Hv : view_of st = (post, c, PcExited, S (List.length pre))).
  { unfold st. rewrite view_run, view_started. cbn [values closed].
    replace (count is_scanner sched)
      with (S (List.length pre + 3 + (count is_scanner sched - List.length pre - 4)))
      by lia.
    rewrite Nat.iter_succ_r. cbn [scan_next].
    rewrite Heq, (scan_to_match cli pre ev post c 0 _ Hpre Hev).
    f_equal. lia. }
  unfold view_of in Hv. injection Hv as H1 _ H3 H4.
  destruct (exited_counts st Hinv H3) as [Hc Hs].
  auto.
Qed.

(** C8.  A closed stream in which no event resolves to the target: the
    goroutine drains it, terminates and closes [done]; at no point of the
    execution has [done] been closed more than once. *)
Theorem discover_completes_when_stream_closes
    (cli : Bctl) (evs : list DeviceDiscovered)
    (st0 : sys) (sched : list actor) :
  Discover (Ok (mkStream evs true)) = Ok st0 ->
  count (carries_target cli) evs = 0 ->
  List.length evs + 4 <= count is_scanner sched ->
  let st := run cli sched st0 in
  at_pc st = PcExited /\
  received st = List.length evs /\
  done_closes st = 1 /\
  (forall s1 s2, sched = s1 ++ s2 -> done_closes (run cli s1 st0) <= 1).
Proof.
  intros Hd Hnone Hsched st. cbn in Hd. injection Hd as <-.
  assert (Hinv : Inv st) by (apply Inv_run, Inv_started).
  assert (Hv : view_of st = ([], true, PcExited, List.length evs)).
  { unfold st. rewrite view_run, view_started. cbn [values closed].
    replace (count is_scanner sched)
      with (S (List.length evs + 3 + (count is_scanner sched - List.length evs - 4)))
      by lia.
    rewrite Nat.iter_succ_r. cbn [scan_next].
    rewrite scan_to_end by now apply count_zero_forallb.
    reflexivity. }
  unfold view_of in Hv. injection Hv as _ _ H3 H4.
  destruct (exited_counts st Hinv H3) as [Hc _].
  repeat split; try assumption.
  intros s1 s2 _. apply closes_at_most_once, Inv_run, Inv_started.
Qed.

Lemma scan_open_range (cli : Bctl) (n : nat) :
  forall ds r,
    forallb (fun e => negb (carries_target cli e)) ds = true ->
    exists ds' r',
      Nat.iter n (scan_next cli) (ds, false, PcRange, r) = (ds', false, PcRange, r').
Proof.
  induction n as [|n IH]; intros ds r Hall; [now exists ds, r|].
  rewrite Nat.iter_succ_r. cbn [scan_next].
  destruct ds as [|e ds]; [now apply IH|].
  cbn in Hall. apply andb_true_iff in Hall. destruct Hall as [He Hall].
  apply negb_true_iff in He. rewrite He. now apply IH.
Qed.

(** The hypothesis of C8 matters: while the channel stays open and nothing
    matches, the goroutine is still in its loop and [done] is not closed. *)
Lemma open_stream_never_completes
    (cli : Bctl) (evs : list DeviceDiscovered) (sched : list actor) :
  count (carries_target cli) evs = 0 ->
  let st := run cli sched (started (mkStream evs false)) in
  at_pc st <> PcExited /\ done_closes st = 0.
Proof.
  intros Hnone st.
  assert (Hinv : Inv st) by (apply Inv_run, Inv_started).
  assert (Hpc : at_pc st = PcStart \/ at_pc st = PcRange).
  { assert (Hv := view_run cli sched (started (mkStream evs false))).
    fold st in Hv. rewrite view_started in Hv. cbn [values closed] in Hv.
    destruct (count is_scanner sched) as [|n]; [left; now injection Hv|right].
    rewrite Nat.iter_succ_r in Hv. cbn [scan_next] in Hv.
    destruct (scan_open_range cli n evs 0 (count_zero_forallb _ _ Hnone))
      as (ds' & r' & Heq).
    rewrite Heq in Hv. now injection Hv. }
  destruct Hinv as (_ & Hp & _). unfold pc_ok in Hp.
  destruct Hpc as [Hpc|Hpc]; rewrite Hpc in *; split; congruence.
Qed.

Lemma discover_stops_at_first_match_witness :
  count (carries_target scenario_cli) scenario_events = 1 /\
  first_target scenario_cli scenario_events + 4 <= count is_scanner scenario_schedule /\
  let st := run scenario_cli scenario_schedule (started (mkStream scenario_events false)) in
  at_pc st = PcExited /\
  received st = 3 /\
  devices st = [] /\
  done_closes st = 1 /\
  stop_calls st = 1.
Proof.
  split; [reflexivity|]. split; [vm_compute; lia|].
  apply (discover_stops_at_first_match scenario_cli scenario_events false
           (started (mkStream scenario_events false)) scenario_schedule);
    [reflexivity | reflexivity | vm_compute; lia].
Defined.

Lemma discover_completes_when_stream_closes_witness :
  let evs := [unreachable_event; nameless_event] in
  count (carries_target scenario_cli) evs = 0 /\
  List.length evs + 4 <= count is_scanner scenario_schedule /\
  let st := run scenario_cli scenario_schedule (started (mkStream evs true)) in
  at_pc st = PcExited /\
  received st = 2 /\
  done_closes st = 1 /\
  (forall s1 s2, scenario_schedule = s1 ++ s2 ->
     done_closes (run scenario_cli s1 (started (mkStream evs true))) <= 1).
Proof.
  intros evs. split; [reflexivity|]. split; [vm_compute; lia|].
  apply (discover_completes_when_stream_closes scenario_cli evs
           (started (mkStream evs true)) scenario_schedule);
    [reflexivity | reflexivity | vm_compute; lia].
Defined.

(** C9.  An event whose handle creation or address lookup fails: the
    goroutine logs the error and stays in its loop with the rest of the
    stream in front of it; the gate, the stop function and [done] are not
    touched. *)
Theorem resolution_error_is_skipped
    (cli : Bctl) (st : sys) (ev : DeviceDiscovered)
    (rest : list DeviceDiscovered) (err : error) :
  at_pc st = PcRange ->
  devices st = ev :: rest ->
  resolution_error ev = Some err ->
  let st' := scanner_step cli st in
  (exists msg,
     trace st' = trace st ++ [EffLog (Trace ("scanned device" ++ Path ev));
                              EffLog (WithError_Trace err msg)]) /\
  at_pc st' = PcRange /\
  devices st' = rest /\
  devices_closed st' = devices_closed st /\
  received st' = S (received st) /\
  once_done st' = once_done st /\
  stop_calls st' = stop_calls st /\
  done_closes st' = done_closes st.
Proof.
  intros Hpc Hds Herr st'. unfold st', scanner_step. rewrite Hpc, Hds.
  unfold resolution_error in Herr. unfold loop_body.
  assert (Hcount : forall msg,
    count is_stop (trace st ++ [EffLog (Trace ("scanned device" ++ Path ev));
                                EffLog (WithError_Trace err msg)]) = stop_calls st /\
    count is_close (trace st ++ [EffLog (Trace ("scanned device" ++ Path ev));
                                 EffLog (WithError_Trace err msg)]) = done_closes st).
  { intros msg. rewrite !count_app. cbn. unfold stop_calls, done_closes. lia. }
  destruct (NewDevice1 ev) as [d|e].
  - destruct (GetAddress d) as [addr|e]; [discriminate|].
    injection Herr as ->.
    destruct (Hcount "get device address failed") as [Hs Hc].
    unfold stop_calls, done_closes. cbn [logrus emit receive trace at_pc devices
      devices_closed received once_done]. rewrite <- !app_assoc. cbn [app].
    repeat split; try assumption. now exists "get device address failed".
  - injection Herr as ->.
    destruct (Hcount "create device by dbus path") as [Hs Hc].
    unfold stop_calls, done_closes. cbn [logrus emit receive trace at_pc devices
      devices_closed received once_done]. rewrite <- !app_assoc. cbn [app].
    repeat split; try assumption. now exists "create device by dbus path".
Qed.

Lemma resolution_error_is_skipped_witness :
  let st := mkSys [nameless_event; unreachable_event] false false PcRange 0
                  [EffLog (Info "discovery started")] in
  let st' := scanner_step scenario_cli st in
  at_pc st' = PcRange /\ devices st' = [unreachable_event] /\
  stop_calls st' = 0 /\ done_closes st' = 0.
Proof.
  intros st.
  destruct (resolution_error_is_skipped scenario_cli st nameless_event
              [unreachable_event] (ErrNew "property Address missing")
              eq_refl eq_refl eq_refl)
    as (_ & Hpc & Hds & _ & _ & _ & Hs & Hc).
  repeat split; assumption.
Defined.

(** ** The cancellation gate *)

Lemma once_done_scanner_step (cli : Bctl) (st : sys) :
  once_done st = true -> once_done (scanner_step cli st) = true.
Proof.
  intros H. unfold scanner_step.
  destruct (at_pc st); try exact H.
  - destruct (devices st) as [|ev rest].
    + now destruct (devices_closed st).
    + unfold loop_body.
      destruct (NewDevice1 ev) as [d|e]; [|exact H].
      destruct (GetAddress d) as [addr|e]; [|exact H].
      now destruct (is_match cli addr).
  - apply cancelOnce_sets_flag.
Qed.

Lemma once_done_run (cli : Bctl) (sched : list actor) (st : sys) :
  once_done st = true -> once_done (run cli sched st) = true.
Proof.
  revert st. induction sched as [|a sched IH]; intros st H; [exact H|].
  cbn. apply IH. destruct a; cbn.
  - now apply once_done_scanner_step.
  - apply cancelOnce_sets_flag.
Qed.

Lemma once_done_after_call (cli : Bctl) (sched : list actor) (st : sys) :
  0 < count is_caller sched -> once_done (run cli sched st) = true.
Proof.
  revert st. induction sched as [|a sched IH]; intros st H; [cbn in H; lia|].
  destruct a.
  - cbn. apply IH. exact H.
  - cbn. apply once_done_run, cancelOnce_sets_flag.
Qed.

Lemma cancelOnce_noop (st : sys) : once_done st = true -> cancelOnce st = st.
Proof. intros H. unfold cancelOnce, Once_Do. now rewrite H. Qed.

(** C2.  The capability [Discover] returns is called more than once, from
    any call sites and in any interleaving with the goroutine: the scan's
    stop function has run exactly once, and every call that is not the
    first leaves the state as it found it. *)
Theorem cancel_runs_stop_once
    (cli : Bctl) (api : result Stream) (st0 : sys) (sched : list actor) :
  Discover api = Ok st0 ->
  1 < count is_caller sched ->
  stop_calls (run cli sched st0) = 1 /\
  (forall s1 s2,
      sched = s1 ++ Caller :: s2 ->
      0 < count is_caller s1 ->
      step cli (run cli s1 st0) Caller = run cli s1 st0).
Proof.
  intros Hd HN. apply Discover_started in Hd. destruct Hd as (s & _ & ->).
  split.
  - assert (Hinv : Inv (run cli sched (started s))) by apply Inv_run, Inv_started.
    destruct Hinv as (Hg & _). unfold gate_ok in Hg.
    rewrite once_done_after_call in Hg by lia. exact Hg.
  - intros s1 s2 _ H1. cbn. apply cancelOnce_noop.
    now apply once_done_after_call.
Qed.

Lemma cancel_runs_stop_once_witness :
  1 < count is_caller scenario_schedule /\
  stop_calls (run scenario_cli scenario_schedule
                  (started (mkStream scenario_events false))) = 1.
Proof.
  split; [vm_compute; lia|].
  apply (cancel_runs_stop_once scenario_cli (Ok (mkStream scenario_events false))
           (started (mkStream scenario_events false)) scenario_schedule);
    [reflexivity | vm_compute; lia].
Defined.

(** Sequential use is the special case of a schedule of calls only. *)
Lemma cancelOnce_repeated (cli : Bctl) (s : Stream) (n : nat) :
  stop_calls (run cli (repeat Caller (S n)) (started s)) = 1.
Proof.
  assert (Hinv : Inv (run cli (repeat Caller (S n)) (started s)))
    by apply Inv_run, Inv_started.
  destruct Hinv as (Hg & _). unfold gate_ok in Hg.
  rewrite once_done_after_call in Hg; [exact Hg|].
  cbn. unfold count. cbn. lia.
Qed.

(** ** Order of the two deferred calls *)

Lemma In_close_count (tr : list effect) :
  In EffCloseDone tr -> 0 < count is_close tr.
Proof.
  induction tr as [|e tr IH]; [contradiction|].
  intros [->|H]; unfold count in *; cbn; [lia|].
  specialize (IH H). destruct (is_close e); cbn; lia.
Qed.

(** C10.  In every execution, wherever [close(done)] occurs in the trace
    a call of the scan's stop function occurs before it, and the stop
    function has run exactly once by then: the goroutine goes through
    [cancelOnce] before it closes [done], on the match path and on the
    closed-stream path alike. *)
Theorem stop_before_done
    (cli : Bctl) (api : result Stream) (st0 : sys) (sched : list actor)
    (pre post : list effect) :
  Discover api = Ok st0 ->
  trace (run cli sched st0) = pre ++ EffCloseDone :: post ->
  In EffStop pre /\
  count is_stop pre = 1 /\
  stop_calls (run cli sched st0) = 1.
Proof.
  intros Hd Htr. apply Discover_started in Hd. destruct Hd as (s & _ & ->).
  assert (Hinv : Inv (run cli sched (started s))) by apply Inv_run, Inv_started.
  destruct Hinv as (Hg & Hp & Ht).
  assert (Hin : In EffStop pre) by exact (Ht pre post Htr).
  assert (Hc : 0 < done_closes (run cli sched (started s))).
  { unfold done_closes. apply In_close_count. rewrite Htr.
    apply in_or_app. right. now left. }
  assert (Hs : stop_calls (run cli sched (started s)) = 1).
  { unfold pc_ok in Hp. unfold gate_ok in Hg.
    destruct (at_pc (run cli sched (started s)));
      try lia; destruct Hp as [Hp1 Hp2]; try lia.
    now rewrite Hp2 in Hg. }
  repeat split; try assumption.
  assert (H1 : 0 < count is_stop pre).
  { clear - Hin. induction pre as [|e pre IH]; [contradiction|].
    unfold count in *. destruct Hin as [->|H]; cbn; [lia|].
    specialize (IH H). destruct (is_stop e); cbn; lia. }
  unfold stop_calls in Hs. rewrite Htr, count_app in Hs. lia.
Qed.

Lemma stop_before_done_witness :
  let st := run scenario_cli scenario_schedule
                (started (mkStream scenario_events false)) in
  exists pre post,
    trace st = pre ++ EffCloseDone :: post /\
    In EffStop pre /\ count is_stop pre = 1 /\ stop_calls st = 1.
Proof.
  intros st.
  exists (removelast (trace st)), [].
  split; [reflexivity|].
  apply (stop_before_done scenario_cli (Ok (mkStream scenario_events false))
           (started (mkStream scenario_events false)) scenario_schedule
           (removelast (trace st)) []);
    reflexivity.
Defined.

(** ** The wait barrier *)

Lemma go_select_In {C : Type} (ready : list C) (pick : nat) (c : C) :
  go_select ready pick = Some c -> In c ready.
Proof. unfold go_select. apply nth_error_In. Qed.

Lemma go_select_ready {C : Type} (ready : list C) (pick : nat) :
  ready <> [] -> exists c, go_select ready pick = Some c.
Proof.
  intros Hne. unfold go_select.
  destruct (nth_error ready (pick mod List.length ready)) as [c|] eqn:E;
    [now exists c|].
  apply nth_error_None in E.
  assert (0 < List.length ready) by (destruct ready; [congruence | cbn; lia]).
  pose proof (Nat.mod_upper_bound pick (List.length ready)). lia.
Qed.

Lemma go_select_single {C : Type} (c : C) (pick : nat) :
  go_select [c] pick = Some c.
Proof. unfold go_select. cbn [List.length]. now rewrite Nat.mod_1_r. Qed.

Lemma closed_iff_in_trace (st : sys) :
  discoveryDone st = true <-> In EffCloseDone (trace st).
Proof.
  unfold discoveryDone, done_closes. rewrite Nat.ltb_lt. split.
  - generalize (trace st). intros tr. induction tr as [|e tr IH]; cbn; [lia|].
    unfold count in *. destruct e; cbn; auto.
  - apply In_close_count.
Qed.

Lemma go_select_pair {C : Type} (a b : C) (pick : nat) :
  go_select [a; b] pick = Some (if Nat.eqb (pick mod 2) 0 then a else b).
Proof.
  unfold go_select. cbn [List.length].
  pose proof (Nat.mod_upper_bound pick 2) as H.
  destruct (pick mod 2) as [|[|n]]; [reflexivity | reflexivity | lia].
Qed.

(** C6, as the code has it.  [Wait] is called in a state the scanner has
    reached.  With only the context cancelled it returns the context's
    error; with only [done] closed it returns [nil]; with both, the select
    takes either case and the result follows the runtime's draw; with
    neither it blocks.  It returns [nil] only after the goroutine's
    [close(done)], by when the scan has been stopped, and an error only if
    that is the context's.  The call leaves the scanner, the gate and the
    trace as they were. *)
Theorem wait_result_follows_select
    (cli : Bctl) (s : Stream) (sched : list actor) (ctx : Context) (pick : nat) :
  let st := run cli sched (started s) in
  let r := fst (Wait ctx pick st) in
  snd (Wait ctx pick st) = st /\
  (forall e, ctx_Err ctx = Some e -> ~ In EffCloseDone (trace st) ->
     r = WaitReturned (Some e)) /\
  (ctx_Err ctx = None -> In EffCloseDone (trace st) -> r = WaitReturned None) /\
  (forall e, ctx_Err ctx = Some e -> In EffCloseDone (trace st) ->
     r = if Nat.eqb (pick mod 2) 0
         then WaitReturned (Some e) else WaitReturned None) /\
  (ctx_Err ctx = None -> ~ In EffCloseDone (trace st) -> r = WaitBlocked) /\
  (r = WaitReturned None ->
     In EffCloseDone (trace st) /\ at_pc st = PcExited /\ stop_calls st = 1) /\
  (forall e, r = WaitReturned (Some e) -> ctx_Err ctx = Some e).
Proof.
  intros st r.
  assert (Hsnd : snd (Wait ctx pick st) = st).
  { unfold Wait. destruct (wait_select ctx pick st) as [[|]|]; reflexivity. }
  split; [exact Hsnd|].
  assert (Hinv : Inv st) by apply Inv_run, Inv_started.
  assert (Hexit : In EffCloseDone (trace st) ->
                  at_pc st = PcExited /\ stop_calls st = 1).
  { intros Hin. apply In_close_count in Hin. fold (done_closes st) in Hin.
    destruct Hinv as (Hg & Hp & _). unfold pc_ok in Hp. unfold gate_ok in Hg.
    destruct (at_pc st); try lia; destruct Hp as [Hp1 Hp2]; try lia.
    rewrite Hp2 in Hg. auto. }
  pose proof (closed_iff_in_trace st) as Hiff.
  unfold r, Wait, wait_select, wait_ready, ctx_Done.
  destruct (ctx_Err ctx) as [e0|] eqn:He;
    destruct (discoveryDone st) eqn:Hd; cbn [app].
  - assert (Hin : In EffCloseDone (trace st)) by now apply Hiff.
    rewrite go_select_pair.
    destruct (Nat.eqb (pick mod 2) 0); cbn [fst];
      repeat split; intros; try discriminate; try congruence; try tauto.
  - assert (Hnot : ~ In EffCloseDone (trace st))
      by (intros Hin; apply Hiff in Hin; discriminate).
    rewrite go_select_single. cbn [fst].
    repeat split; intros; try discriminate; try congruence; try tauto.
  - assert (Hin : In EffCloseDone (trace st)) by now apply Hiff.
    rewrite go_select_single. cbn [fst].
    repeat split; intros; try discriminate; try congruence; try tauto.
  - assert (Hnot : ~ In EffCloseDone (trace st))
      by (intros Hin; apply Hiff in Hin; discriminate).
    assert (Hnone : go_select (@nil wait_case) pick = None)
      by (unfold go_select; now destruct (pick mod _)).
    rewrite Hnone. cbn [fst].
    repeat split; intros; try discriminate; try congruence; try tauto.
Qed.

Lemma wait_result_follows_select_witness :
  let s := mkStream scenario_events false in
  let finished := run scenario_cli scenario_schedule (started s) in
  let scanning := run scenario_cli [Scanner; Scanner; Caller] (started s) in
  (In EffCloseDone (trace finished) /\
   fst (Wait (mkContext None) 0 finished) = WaitReturned None) /\
  (~ In EffCloseDone (trace scanning) /\
   fst (Wait (mkContext (Some Canceled)) 0 scanning) = WaitReturned (Some Canceled)) /\
  fst (Wait (mkContext None) 0 scanning) = WaitBlocked.
Proof.
  intros s finished scanning.
  assert (Hin : In EffCloseDone (trace finished))
    by (apply closed_iff_in_trace; reflexivity).
  assert (Hnot : ~ In EffCloseDone (trace scanning))
    by (intros H; apply closed_iff_in_trace in H; discriminate H).
  split; [split; [exact Hin|] | split; [split; [exact Hnot|] |]].
  - destruct (wait_result_follows_select scenario_cli s scenario_schedule
                (mkContext None) 0) as (_ & _ & Hnil & _).
    exact (Hnil eq_refl Hin).
  - destruct (wait_result_follows_select scenario_cli s [Scanner; Scanner; Caller]
                (mkContext (Some Canceled)) 0) as (_ & Herr & _).
    exact (Herr Canceled eq_refl Hnot).
  - destruct (wait_result_follows_select scenario_cli s [Scanner; Scanner; Caller]
                (mkContext None) 0) as (_ & _ & _ & _ & Hblk & _).
    exact (Hblk eq_refl Hnot).
Defined.

(** C6 as stated fails: the context is cancelled and the goroutine has
    closed [done]; the select of [Wait] has two ready cases, the runtime
    takes the completion case, and [Wait] returns [nil] instead of the
    context's error. *)
Lemma cancelled_wait_may_return_nil :
  let st := run scenario_cli scenario_schedule
                (started (mkStream scenario_events false)) in
  (ctx_Err (mkContext (Some Canceled)) = Some Canceled /\
   In EffCloseDone (trace st) /\
   fst (Wait (mkContext (Some Canceled)) 1 st) = WaitReturned None) /\
  ~ (forall (cli : Bctl) (s : Stream) (sched : list actor)
            (ctx : Context) (pick : nat) (e : error),
       ctx_Err ctx = Some e ->
       fst (Wait ctx pick (run cli sched (started s))) = WaitReturned (Some e)).
Proof.
  split.
  - split; [reflexivity|]. split; [|reflexivity].
    apply closed_iff_in_trace. reflexivity.
  - intros H.
    specialize (H scenario_cli (mkStream scenario_events false) scenario_schedule
                  (mkContext (Some Canceled)) 1 Canceled eq_refl).
    discriminate H.
Qed.

(** A caller that [Wait] releases through the completion case finds the
    scan already stopped. *)
Lemma wait_released_after_stop
    (cli : Bctl) (s : Stream) (sched : list actor) (ctx : Context) (pick : nat) :
  wait_select ctx pick (run cli sched (started s)) = Some WaitDiscoveryDone ->
  stop_calls (run cli sched (started s)) = 1.
Proof.
  intros H. apply go_select_In in H.
  assert (Hd : discoveryDone (run cli sched (started s)) = true).
  { unfold wait_ready in H. apply in_app_or in H. destruct H as [H|H].
    - destruct (ctx_Done ctx); [|contradiction].
      destruct H as [H|[]]; discriminate.
    - destruct (discoveryDone _); [reflexivity | contradiction]. }
  unfold discoveryDone in Hd. apply Nat.ltb_lt in Hd.
  assert (Hinv : Inv (run cli sched (started s))) by apply Inv_run, Inv_started.
  destruct Hinv as (Hg & Hp & _). unfold pc_ok in Hp. unfold gate_ok in Hg.
  destruct (at_pc _); try lia; destruct Hp as [Hp1 Hp2]; try lia.
  now rewrite Hp2 in Hg.
Qed.

(** ** One connection attempt *)

Section ConnectAttempt.

Variable cli : Bctl.
Variable NewDevice : string -> string -> result Device.
Variable adapterID : string.

(** What [connect] does and returns, for each answer of the stack. *)
Lemma connect_cases :
  connect cli NewDevice adapterID =
  match NewDevice adapterID (target_address cli) with
  | Err e =>
      (Some (ErrWrap "get device mac" e), [ReqNewDevice adapterID (target_address cli)])
  | Ok d =>
      match GetPaired d with
      | Err e =>
          (Some (ErrWrap "check already paired" e),
           [ReqNewDevice adapterID (target_address cli); ReqGetPaired])
      | Ok true =>
          match Attempt.Connect d with
          | Some e =>
              (Some (ErrWrap "connect to device" e),
               [ReqNewDevice adapterID (target_address cli); ReqGetPaired; ReqConnect])
          | None =>
              (None,
               [ReqNewDevice adapterID (target_address cli); ReqGetPaired; ReqConnect;
                ActLog (Info "device connected successfully")])
          end
      | Ok false =>
          match Pair d with
          | Some e =>
              (Some (ErrWrap "pair with device" e),
               [ReqNewDevice adapterID (target_address cli); ReqGetPaired; ReqPair])
          | None =>
              match Attempt.Connect d with
              | Some e =>
                  (Some (ErrWrap "connect to device" e),
                   [ReqNewDevice adapterID (target_address cli); ReqGetPaired; ReqPair;
                    ReqConnect])
              | None =>
                  (None,
                   [ReqNewDevice adapterID (target_address cli); ReqGetPaired; ReqPair;
                    ReqConnect;
                    ActLog (Info "device connected successfully")])
              end
          end
      end
  end.
Proof.
  unfold connect, connect_body, bind, or_return, request, ret, log, target_address.
  cbn [app].
  destruct (NewDevice adapterID (MAC_String (deviceMAC cli))) as [d|e];
    [|reflexivity].
  destruct (GetPaired d) as [[|]|e]; cbn; [| |reflexivity].
  - destruct (Attempt.Connect d); reflexivity.
  - destruct (Pair d); cbn; [reflexivity|].
    destruct (Attempt.Connect d); reflexivity.
Qed.

(** C4.  An attempt resolves the device for the target address on the
    adapter, asks for the pairing state, pairs only when the device is not
    paired, then connects; it stops at the first request that fails and
    returns that error wrapped; when the earlier requests succeed the
    connect request is made, and the attempt returns [nil] exactly when that
    request was made and succeeded. *)
Theorem connect_attempt_procedure :
  let r := connect cli NewDevice adapterID in
  let full := [ReqNewDevice adapterID (target_address cli); ReqGetPaired; ReqPair; ReqConnect] in
  let paired_path := [ReqNewDevice adapterID (target_address cli); ReqGetPaired; ReqConnect] in
  (* order, and nothing after a failure *)
  (exists n, requests_of (snd r) = firstn (S n) full \/
             requests_of (snd r) = firstn (S n) paired_path) /\
  (forall e, NewDevice adapterID (target_address cli) = Err e ->
     r = (Some (ErrWrap "get device mac" e), [ReqNewDevice adapterID (target_address cli)])) /\
  (forall d e, NewDevice adapterID (target_address cli) = Ok d -> GetPaired d = Err e ->
     r = (Some (ErrWrap "check already paired" e),
          [ReqNewDevice adapterID (target_address cli); ReqGetPaired])) /\
  (forall d e, NewDevice adapterID (target_address cli) = Ok d -> GetPaired d = Ok false ->
     Pair d = Some e ->
     r = (Some (ErrWrap "pair with device" e),
          [ReqNewDevice adapterID (target_address cli); ReqGetPaired; ReqPair])) /\
  (* a paired device: the pair request is skipped, the connect request is
     made, and its answer is the attempt's result *)
  (forall d, NewDevice adapterID (target_address cli) = Ok d -> GetPaired d = Ok true ->
     requests_of (snd r) = paired_path /\
     fst r = option_map (ErrWrap "connect to device") (Attempt.Connect d)) /\
  (* an unpaired device that accepts pairing: the connect request follows
     the pair request, and its answer is the attempt's result *)
  (forall d, NewDevice adapterID (target_address cli) = Ok d -> GetPaired d = Ok false ->
     Pair d = None ->
     requests_of (snd r) = full /\
     fst r = option_map (ErrWrap "connect to device") (Attempt.Connect d)) /\
  (* the pair request is made exactly when the device reports not paired *)
  (In ReqPair (snd r) <->
     exists d, NewDevice adapterID (target_address cli) = Ok d /\ GetPaired d = Ok false) /\
  (* success is the success of the connect request *)
  (fst r = None <->
     exists d, NewDevice adapterID (target_address cli) = Ok d /\
               In ReqConnect (snd r) /\ Attempt.Connect d = None) /\
  (forall d e, NewDevice adapterID (target_address cli) = Ok d -> In ReqConnect (snd r) ->
     Attempt.Connect d = Some e -> fst r = Some (ErrWrap "connect to device" e)).
Proof.
  intros r full paired_path. unfold r, full, paired_path.
  rewrite connect_cases.
  destruct (NewDevice adapterID (target_address cli)) as [d|e0] eqn:Hn;
    [destruct (GetPaired d) as [[|]|e1] eqn:Hg;
       [destruct (Attempt.Connect d) as [e2|] eqn:Hc
       |destruct (Pair d) as [e2|] eqn:Hp;
          [|destruct (Attempt.Connect d) as [e3|] eqn:Hc]
       |]
    |];
    (split; [attempt_order|]); repeat split; attempt_case;
    try (rewrite ?Hc; cbn; split; reflexivity).
Qed.

End ConnectAttempt.

Lemma connect_attempt_procedure_witness :
  let paired := fun _ _ : string => Ok reachable_device in
  let fresh := fun _ _ : string => Ok (mkDevice (Ok false) None None) in
  let target := target_address scenario_cli in
  (requests_of (snd (connect scenario_cli paired "hci0"))
     = [ReqNewDevice "hci0" target; ReqGetPaired; ReqConnect] /\
   fst (connect scenario_cli paired "hci0") = None) /\
  (requests_of (snd (connect scenario_cli fresh "hci0"))
     = [ReqNewDevice "hci0" target; ReqGetPaired; ReqPair; ReqConnect] /\
   fst (connect scenario_cli fresh "hci0") = None).
Proof.
  intros paired fresh target. split.
  - destruct (connect_attempt_procedure scenario_cli paired "hci0")
      as (_ & _ & _ & _ & Hpaired & _).
    exact (Hpaired reachable_device eq_refl eq_refl).
  - destruct (connect_attempt_procedure scenario_cli fresh "hci0")
      as (_ & _ & _ & _ & _ & Hfresh & _).
    exact (Hfresh (mkDevice (Ok false) None None) eq_refl eq_refl eq_refl).
Defined.

(** ** The connection orchestrator *)

Section RetryLoop.

Variable cli : Bctl.
Variable adapterID : string.

(** While the context is live the [select] of the loop never takes the
    cancellation case, and with a token in [once] it does not wait. *)
Lemma select_next_live (it : Iteration) (ch : chans) :
  ctx_Err (ctx ch) = None ->
  undisturbed it ->
  exists c w ch',
    select_next it (arrive it ch) = (c, w, ch') /\
    c <> CaseCtxDone /\
    ctx_Err (ctx ch') = None /\
    (once ch = true -> w = false).
Proof.
  intros Hctx [Hcan Hwake].
  assert (Harr : ctx (arrive it ch) = mkContext None).
  { unfold arrive, ctx_Done. rewrite Hctx. cbn. now rewrite Hcan. }
  unfold select_next, ready, ctx_Done. rewrite Harr. cbn [ctx_Err app].
  destruct (go_select _ (pick it)) as [c|] eqn:Hsel.
  - pose proof (go_select_In _ _ _ Hsel) as Hin.
    destruct c.
    + exfalso. apply in_app_or in Hin.
      destruct Hin as [Hin|Hin];
        [destruct (tick_C (arrive it ch)) | destruct (once (arrive it ch))];
        cbn in Hin; intuition discriminate.
    + eexists _, _, _. split; [reflexivity|]. cbn.
      repeat split; auto; discriminate.
    + eexists _, _, _. split; [reflexivity|]. cbn.
      repeat split; auto; discriminate.
  - rewrite Hwake. eexists _, _, _. split; [reflexivity|].
    rewrite Harr. cbn. repeat split; auto; try discriminate.
    intros Honce. exfalso.
    assert (Hne : (if tick_C (arrive it ch) then [CaseTick] else []) ++
                  (if once (arrive it ch) then [CaseOnce] else []) <> []).
    { replace (once (arrive it ch)) with true by (symmetry; exact Honce).
      destruct (tick_C (arrive it ch)); discriminate. }
    destruct (go_select_ready _ (pick it) Hne) as [c Hc]. congruence.
Qed.

Lemma retry_loop_until_success (fails : list Iteration) :
  forall (good : Iteration) (rest : list Iteration) (ch : chans)
         (done : list Attempted) (lg : list Entry),
    ctx_Err (ctx ch) = None ->
    Forall (fun it => undisturbed it /\
                      fst (connect cli (NewDevice it) adapterID) <> None) fails ->
    undisturbed good ->
    fst (connect cli (NewDevice good) adapterID) = None ->
    exists new newlg,
      retry_loop cli adapterID (fails ++ good :: rest) ch done lg
        = mkRun (Returned None) (done ++ new) (lg ++ newlg) /\
      map outcome new =
        map (fun it => fst (connect cli (NewDevice it) adapterID)) (fails ++ [good]) /\
      List.length newlg = List.length fails /\
      forallb is_retry_message newlg = true /\
      Forall (fun a => trigger a <> CaseCtxDone) new /\
      (once ch = true -> exists a more, new = a :: more /\ waited a = false).
Proof.
  induction fails as [|it fails IH]; intros good rest ch done lg Hctx Hf Hg Hok.
  - cbn [app retry_loop].
    destruct (select_next_live good ch Hctx Hg) as (c & w & ch' & Hsel & Hc & _ & Hw).
    rewrite Hsel.
    destruct (connect cli (NewDevice good) adapterID) as [err acts] eqn:Hconn.
    cbn in Hok. subst err.
    exists [mkAttempted c w acts None], [].
    rewrite app_nil_r. cbn. rewrite Hconn.
    repeat split.
    + destruct c; try reflexivity. congruence.
    + constructor; [exact Hc | constructor].
    + intros Honce. eexists _, _. split; [reflexivity|]. cbn. auto.
  - inversion Hf as [|? ? [Hu Hfail] Hf']; subst.
    cbn [app retry_loop].
    destruct (select_next_live it ch Hctx Hu) as (c & w & ch' & Hsel & Hc & Hctx' & Hw).
    rewrite Hsel.
    destruct (connect cli (NewDevice it) adapterID) as [err acts] eqn:Hconn.
    cbn in Hfail. destruct err as [e|]; [|congruence].
    destruct (IH good rest ch' (done ++ [mkAttempted c w acts (Some e)])
                 (lg ++ [retry_message e]) Hctx' Hf' Hg Hok)
      as (new & newlg & Heq & Hout & Hlen & Hmsg & Htrig & _).
    exists (mkAttempted c w acts (Some e) :: new), (retry_message e :: newlg).
    repeat split.
    + destruct c; try congruence;
        rewrite Heq, <- !app_assoc; reflexivity.
    + cbn. rewrite Hconn. cbn. now rewrite Hout.
    + cbn. now rewrite Hlen.
    + cbn. exact Hmsg.
    + constructor; [exact Hc | exact Htrig].
    + intros Honce. eexists _, _. split; [reflexivity|]. cbn. auto.
Qed.

End RetryLoop.

(** Attempts already made stay in the record of the run. *)
Lemma retry_loop_extends (cli : Bctl) (adapterID : string) (script : list Iteration) :
  forall (ch : chans) (done : list Attempted) (lg : list Entry),
    exists more,
      attempts (retry_loop cli adapterID script ch done lg) = done ++ more.
Proof.
  induction script as [|it script IH]; intros ch done lg.
  - exists []. cbn. now rewrite app_nil_r.
  - cbn [retry_loop].
    destruct (select_next it (arrive it ch)) as [[c w] ch'].
    destruct (connect cli (NewDevice it) adapterID) as [[err|] acts].
    + destruct (IH ch' (done ++ [mkAttempted c w acts (Some err)])
                   (lg ++ [retry_message err])) as [more Hm].
      destruct c; [now (exists []; cbn; rewrite app_nil_r) | |];
        rewrite Hm, <- app_assoc; eexists; reflexivity.
    + destruct c; [now (exists []; cbn; rewrite app_nil_r) | |];
        eexists; reflexivity.
Qed.

(** The select reports cancellation only with the context's error. *)
Lemma select_next_cancel (it : Iteration) (ch : chans) (w : bool) (ch' : chans) :
  select_next it ch = (CaseCtxDone, w, ch') -> ctx_Err (ctx ch') <> None.
Proof.
  unfold select_next.
  destruct (go_select (ready ch) (pick it)) as [c|] eqn:Hsel.
  - destruct c; intros H; try discriminate H. injection H as _ <-.
    apply go_select_In in Hsel. unfold ready, ctx_Done in Hsel.
    destruct (ctx_Err (ctx ch)); [discriminate|].
    exfalso. cbn in Hsel. apply in_app_or in Hsel.
    destruct Hsel as [H|H]; [destruct (tick_C ch) | destruct (once ch)];
      cbn in H; intuition discriminate.
  - destruct (wake it); intros H; try discriminate H.
    injection H as _ <-. discriminate.
Qed.

(** The record of any run: attempts are only added, each failed attempt
    leaves one retry message, every attempt but the last has failed, and
    [nil] is returned exactly when the last attempt succeeded. *)
Lemma retry_loop_record (cli : Bctl) (adapterID : string) (script : list Iteration) :
  forall (ch : chans) (done : list Attempted) (lg : list Entry),
    let r := retry_loop cli adapterID script ch done lg in
    exists new,
      attempts r = done ++ new /\
      logged r = lg ++ retry_messages new /\
      Forall (fun a => outcome a <> None) (removelast new) /\
      (result_of r = Returned None <->
       exists pre a, new = pre ++ [a] /\ outcome a = None).
Proof.
  induction script as [|it script IH]; intros ch done lg r; unfold r; clear r.
  - exists []. cbn. rewrite !app_nil_r. repeat split; auto.
    + discriminate.
    + intros (pre & a & H & _). destruct pre; discriminate.
  - cbn [retry_loop].
    destruct (select_next it (arrive it ch)) as [[c w] ch'] eqn:Hsel.
    assert (Hstop : c = CaseCtxDone ->
      exists new,
        done = done ++ new /\ lg = lg ++ retry_messages new /\
        Forall (fun a => outcome a <> None) (removelast new) /\
        (Returned (ctx_Err (ctx ch')) = Returned None <->
         exists pre a, new = pre ++ [a] /\ outcome a = None)).
    { intros ->. exists []. cbn. rewrite !app_nil_r. repeat split; auto.
      - intros H. injection H as H.
        now apply (select_next_cancel _ _ _ _ Hsel) in H.
      - intros (pre & a & H & _). destruct pre; discriminate. }
    destruct (connect cli (NewDevice it) adapterID) as [[err|] acts].
    + destruct (IH ch' (done ++ [mkAttempted c w acts (Some err)])
                   (lg ++ [retry_message err]))
        as (new & Ha & Hl & Hall & Hres).
      assert (Hgo :
        exists new0,
          attempts (retry_loop cli adapterID script ch'
                      (done ++ [mkAttempted c w acts (Some err)])
                      (lg ++ [retry_message err])) = done ++ new0 /\
          logged (retry_loop cli adapterID script ch'
                      (done ++ [mkAttempted c w acts (Some err)])
                      (lg ++ [retry_message err])) = lg ++ retry_messages new0 /\
          Forall (fun a => outcome a <> None) (removelast new0) /\
          (result_of (retry_loop cli adapterID script ch'
                      (done ++ [mkAttempted c w acts (Some err)])
                      (lg ++ [retry_message err])) = Returned None <->
           exists pre a, new0 = pre ++ [a] /\ outcome a = None)).
      { exists (mkAttempted c w acts (Some err) :: new).
        rewrite Ha, Hl, <- !app_assoc. cbn [app retry_messages flat_map outcome].
        repeat split.
        - destruct new as [|a new]; [constructor|].
          cbn [removelast]. constructor; [discriminate | exact Hall].
        - intros H. apply Hres in H. destruct H as (pre & a & -> & Ho).
          now exists (mkAttempted c w acts (Some err) :: pre), a.
        - intros (pre & a & H & Ho). apply Hres.
          destruct pre as [|p pre].
          + injection H as <- _. discriminate.
          + injection H as _ ->. now exists pre, a. }
      destruct c; [now apply Hstop | exact Hgo | exact Hgo].
    + assert (Hgo : forall c0,
        exists new0,
          done ++ [mkAttempted c0 w acts None] = done ++ new0 /\
          lg = lg ++ retry_messages new0 /\
          Forall (fun a => outcome a <> None) (removelast new0) /\
          (Returned None = Returned None <->
           exists pre a, new0 = pre ++ [a] /\ outcome a = None)).
      { intros c0. exists [mkAttempted c0 w acts None]. cbn.
        rewrite app_nil_r. repeat split; auto.
        now exists [], (mkAttempted c0 w acts None). }
      destruct c; [now apply Hstop | apply Hgo | apply Hgo].
Qed.

(** Read off the record of a finished call: when the attempts made are K
    failures followed by a success, [Connect] has returned [nil] and logged
    K retry messages, whatever happened to the context meanwhile. *)
Lemma Connect_record
    (cli : Bctl) (ctx0 : Context) (script : list Iteration)
    (pre : list Attempted) (a : Attempted) :
  let r := Connect cli ctx0 script in
  attempts r = pre ++ [a] ->
  outcome a = None ->
  result_of r = Returned None /\
  Forall (fun b => outcome b <> None) pre /\
  List.length (logged r) = List.length pre.
Proof.
  intros r. unfold r, Connect.
  destruct (GetAdapterID (adapter cli)) as [adapterID|err].
  2:{ cbn. intros H. destruct pre; discriminate. }
  destruct (retry_loop_record cli adapterID script (mkChans ctx0 false true) [] [])
    as (new & Ha & Hl & Hall & Hres).
  cbn [app] in Ha, Hl. intros Hatt Hout.
  rewrite Ha in Hatt. clear Ha. subst new. rewrite removelast_last in Hall.
  split; [apply Hres; now exists pre, a|]. split; [exact Hall|].
  rewrite Hl. unfold retry_messages. rewrite flat_map_app. cbn.
  rewrite Hout, app_nil_r. clear - Hall.
  induction Hall as [|b l Hb _ IH]; [reflexivity|].
  cbn. destruct (outcome b); [|congruence]. cbn. now rewrite IH.
Qed.

(** C3.  The adapter identifier is available, the context is live, the
    first K attempts fail (whatever the failing request) and the next one
    succeeds: [Connect] makes exactly K+1 attempts, the first without waiting
    for the ticker, logs exactly K retry messages and returns [nil]. *)
Theorem connect_retries_until_success
    (cli : Bctl) (adapterID : string) (ctx0 : Context)
    (fails : list Iteration) (good : Iteration) (rest : list Iteration) :
  GetAdapterID (adapter cli) = Ok adapterID ->
  ctx_Err ctx0 = None ->
  Forall (fun it => undisturbed it /\
                    fst (connect cli (NewDevice it) adapterID) <> None) fails ->
  undisturbed good ->
  fst (connect cli (NewDevice good) adapterID) = None ->
  let r := Connect cli ctx0 (fails ++ good :: rest) in
  let K := List.length fails in
  result_of r = Returned None /\
  List.length (attempts r) = K + 1 /\
  map outcome (attempts r) =
    map (fun it => fst (connect cli (NewDevice it) adapterID)) (fails ++ [good]) /\
  Forall (fun a => trigger a <> CaseCtxDone) (attempts r) /\
  (exists first more, attempts r = first :: more /\ waited first = false) /\
  List.length (logged r) = K /\
  count is_retry_message (logged r) = K.
Proof.
  intros Hid Hctx Hf Hg Hok r K. unfold r, Connect. rewrite Hid.
  destruct (retry_loop_until_success cli adapterID fails good rest
              (mkChans ctx0 false true) [] [] Hctx Hf Hg Hok)
    as (new & newlg & Heq & Hout & Hlen & Hmsg & Htrig & Hfirst).
  rewrite Heq. cbn [result_of attempts logged app].
  repeat split; try assumption.
  - apply (f_equal (@List.length _)) in Hout.
    rewrite !length_map, length_app in Hout. cbn in Hout. exact Hout.
  - now apply Hfirst.
  - now rewrite count_all.
Qed.

Lemma connect_retries_until_success_witness :
  let r := Connect scenario_cli (mkContext None) scenario_script in
  result_of r = Returned None /\
  List.length (attempts r) = 3 /\
  List.length (logged r) = 2 /\
  count is_retry_message (logged r) = 2.
Proof.
  intros r.
  destruct (connect_retries_until_success scenario_cli "hci0" (mkContext None)
              [on_tick busy_device; on_tick unreachable_device]
              (on_tick reachable_device) [])
    as (H1 & H2 & _ & _ & _ & H6 & H7).
  - reflexivity.
  - reflexivity.
  - repeat constructor; discriminate.
  - split; reflexivity.
  - reflexivity.
  - repeat split; assumption.
Defined.

(** When the select finds the context cancelled and neither a tick nor the
    immediate token pending, the loop returns the context's error and makes
    no further attempt. *)
Lemma cancel_observed_without_token
    (cli : Bctl) (adapterID : string) (e : error) (it : Iteration)
    (rest : list Iteration) (ch : chans) (done : list Attempted)
    (lg : list Entry) :
  ctx_Err (ctx ch) = Some e ->
  tick_C ch = false -> ticked it = false -> once ch = false ->
  retry_loop cli adapterID (it :: rest) ch done lg
    = mkRun (Returned (Some e)) done lg.
Proof.
  intros Hctx Ht Hk Ho. cbn [retry_loop].
  unfold select_next, arrive, ready, ctx_Done. rewrite Hctx, Ht, Hk, Ho.
  cbn [ctx tick_C once orb app]. rewrite Hctx. cbn [app].
  rewrite go_select_single. cbn. now rewrite Hctx.
Qed.

(** C5, as the code has it.  The context is cancelled on entry and no tick
    has fired: the first select finds the cancellation and the immediate
    token ready.  When the runtime's draw is the cancellation, [Connect]
    returns the context's error and makes no attempt; when it is the token,
    an attempt is made first. *)
Theorem connect_cancelled_on_entry
    (cli : Bctl) (adapterID : string) (e : error)
    (it : Iteration) (rest : list Iteration) :
  GetAdapterID (adapter cli) = Ok adapterID ->
  ticked it = false ->
  let r := Connect cli (mkContext (Some e)) (it :: rest) in
  (pick it mod 2 = 0 -> r = mkRun (Returned (Some e)) [] []) /\
  (pick it mod 2 = 1 ->
     exists first more,
       attempts r = first :: more /\
       trigger first = CaseOnce /\ waited first = false /\
       outcome first = fst (connect cli (NewDevice it) adapterID)).
Proof.
  intros Hid Hk r. unfold r, Connect. rewrite Hid. cbn [retry_loop].
  unfold select_next, arrive, ready, ctx_Done, go_select. cbn. rewrite Hk. cbn.
  split; intros Hpick; rewrite Hpick; cbn; [reflexivity|].
  destruct (connect cli (NewDevice it) adapterID) as [[err|] acts] eqn:Hconn.
  - match goal with |- context [retry_loop ?c ?a ?s ?ch ?d ?l] =>
      destruct (retry_loop_extends c a s ch d l) as [more Hm]
    end.
    rewrite Hm. cbn. eexists _, _.
    split; [reflexivity|]. cbn. auto.
  - cbn. eexists _, _. split; [reflexivity|]. cbn. auto.
Qed.

Lemma connect_cancelled_on_entry_witness :
  Connect scenario_cli (mkContext (Some Canceled)) [on_tick reachable_device]
    = mkRun (Returned (Some Canceled)) [] [].
Proof.
  apply (connect_cancelled_on_entry scenario_cli "hci0" Canceled
           (on_tick reachable_device) []); reflexivity.
Defined.

(** C5 as stated fails: with the context cancelled on entry and no tick
    fired, the runtime may take the immediate token; the attempt is made,
    and here it succeeds, so [Connect] returns [nil]. *)
Lemma cancelled_context_still_attempts :
  let it := second_case reachable_device in
  let r := Connect scenario_cli (mkContext (Some Canceled)) [it] in
  (ticked it = false /\
   result_of r = Returned None /\
   List.length (attempts r) = 1) /\
  ~ (forall (cli : Bctl) (e : error) (it : Iteration) (rest : list Iteration),
       ticked it = false ->
       let r := Connect cli (mkContext (Some e)) (it :: rest) in
       result_of r = Returned (Some e) /\ attempts r = []).
Proof.
  split; [repeat split|].
  intros H.
  destruct (H scenario_cli Canceled (second_case reachable_device) [] eq_refl)
    as [_ Hnone].
  discriminate Hnone.
Qed.

(** ** Address comparison *)






(** Whatever the target's rendering is, the comparison tells the two
    spellings of one identifier apart. *)
Lemma match_is_case_sensitive (cli : Bctl) :
  is_match cli "AA:BB:CC:DD:EE:FF" = false \/
  is_match cli "aa:bb:cc:dd:ee:ff" = false.
Proof.
  unfold is_match.
  destruct (String.eqb "AA:BB:CC:DD:EE:FF" _) eqn:E1; [|now left].
  right. apply String.eqb_eq in E1. now rewrite <- E1.
Qed.



(** * Further properties of the program *)

(** ** Executions of the scanner *)

Lemma run_invariant (cli : Bctl) (P : sys -> Prop) :
  (forall st a, P st -> P (step cli st a)) ->
  forall sched st, P st -> P (run cli sched st).
Proof.
  intros Hstep sched. induction sched as [|a sched IH]; intros st H; [exact H|].
  cbn. apply IH, Hstep, H.
Qed.

Lemma run_snoc (cli : Bctl) (sched : list actor) (a : actor) (st : sys) :
  run cli (sched ++ [a]) st = step cli (run cli sched st) a.
Proof. unfold run. now rewrite fold_left_app. Qed.

Lemma run_concat (cli : Bctl) (s1 s2 : list actor) (st : sys) :
  run cli (s1 ++ s2) st = run cli s2 (run cli s1 st).
Proof. unfold run. apply fold_left_app. Qed.

Lemma skipn_head {A : Type} (n : nat) (l : list A) (x : A) (rest : list A) :
  skipn n l = x :: rest ->
  skipn (S n) l = rest /\ n < List.length l /\ firstn (S n) l = firstn n l ++ [x].
Proof.
  revert l. induction n as [|n IH]; intros [|y l] H; cbn in H; try discriminate.
  - injection H as -> ->. cbn. repeat split. lia.
  - destruct (IH l H) as (H1 & H2 & H3). cbn [skipn List.length].
    repeat split; [exact H1 | lia |].
    change (firstn (S (S n)) (y :: l)) with (y :: firstn (S n) l).
    now rewrite H3.
Qed.

Lemma view_step (cli : Bctl) (st : sys) (a : actor) :
  view_of (step cli st a) =
  if is_scanner a then scan_next cli (view_of st) else view_of st.
Proof.
  destruct a; cbn; [apply view_scanner_step | apply view_cancelOnce].
Qed.

Lemma filter_snoc {A : Type} (p : A -> bool) (l : list A) (x : A) :
  filter p (l ++ [x]) = filter p l ++ (if p x then [x] else []).
Proof. rewrite filter_app. cbn. now destruct (p x). Qed.

Lemma scanned_cancelOnce (st : sys) :
  filter is_scanned (trace (cancelOnce st)) = filter is_scanned (trace st).
Proof.
  unfold cancelOnce, Once_Do, cancel. destruct (once_done st); [reflexivity|].
  change (trace (set_once_done (emit EffStop st))) with (trace st ++ [EffStop]).
  rewrite filter_snoc. cbn. apply app_nil_r.
Qed.

(** X1.  Under every schedule the goroutine handles the values of the
    channel once each and in the order the channel delivers them: the
    "scanned device" lines in the trace are, in order, those of the first
    [received] values of the stream, and what is left to receive is the rest
    of the stream. *)
Theorem stream_consumed_in_order
    (cli : Bctl) (s : Stream) (sched : list actor) :
  let st := run cli sched (started s) in
  filter is_scanned (trace st)
    = map scanned_line (firstn (received st) (values s)) /\
  devices st = skipn (received st) (values s) /\
  received st <= List.length (values s).
Proof.
  apply (run_invariant cli
           (fun st => filter is_scanned (trace st)
                        = map scanned_line (firstn (received st) (values s)) /\
                      devices st = skipn (received st) (values s) /\
                      received st <= List.length (values s))).
  2:{ cbn. repeat split. lia. }
  intros st a (Ht & Hd & Hr). destruct a; cbn [step].
  2:{ rewrite scanned_cancelOnce.
      pose proof (view_cancelOnce st) as Hv. unfold view_of in Hv.
      injection Hv as -> _ _ ->. auto. }
  unfold scanner_step. destruct (at_pc st) eqn:Hpc.
  - cbn [goto logrus emit trace received devices].
    rewrite filter_snoc. cbn. rewrite app_nil_r. auto.
  - destruct (devices st) as [|ev rest] eqn:Hds.
    + destruct (devices_closed st); cbn [goto trace received devices];
        rewrite ?Hds; auto.
    + symmetry in Hd. destruct (skipn_head _ _ _ _ Hd) as (H1 & H2 & H3).
      assert (Hmap : map scanned_line (firstn (S (received st)) (values s))
                     = filter is_scanned (trace st) ++ [scanned_line ev])
        by (rewrite H3, map_app, Ht; reflexivity).
      unfold loop_body.
      destruct (NewDevice1 ev) as [d|e];
        [destruct (GetAddress d) as [addr|e]; [destruct (is_match cli addr)|]|];
        cbn [goto logrus receive emit trace received devices];
        rewrite Hmap, !filter_snoc; cbn; rewrite ?app_nil_r;
        (split; [reflexivity | split; [exact (eq_sym H1) | exact H2]]).
  - cbn [goto trace received devices]. rewrite scanned_cancelOnce.
    pose proof (view_cancelOnce st) as Hv. unfold view_of in Hv.
    injection Hv as -> _ _ ->. auto.
  - cbn [goto emit trace received devices].
    rewrite filter_snoc. cbn. rewrite app_nil_r. auto.
  - auto.
Qed.

Lemma scanner_step_gate (cli : Bctl) (st : sys) :
  let leaving := match at_pc st with PcDeferCancel => true | _ => false end in
  once_done (scanner_step cli st) = once_done st || leaving /\
  past_gate (at_pc (scanner_step cli st)) = past_gate (at_pc st) || leaving.
Proof.
  unfold scanner_step.
  destruct (at_pc st) eqn:Hpc; cbn; rewrite ?orb_false_r, ?orb_true_r.
  - auto.
  - destruct (devices st) as [|ev rest].
    + destruct (devices_closed st); cbn; rewrite ?Hpc; auto.
    + unfold loop_body.
      destruct (NewDevice1 ev) as [d|e]; cbn; rewrite ?Hpc; auto.
      destruct (GetAddress d) as [addr|e]; cbn; rewrite ?Hpc; auto.
      destruct (is_match cli addr); cbn; rewrite ?Hpc; auto.
  - split; [apply cancelOnce_sets_flag | reflexivity].
  - auto.
  - rewrite Hpc. auto.
Qed.

Lemma cancelOnce_keeps_pc (st : sys) : at_pc (cancelOnce st) = at_pc st.
Proof.
  pose proof (view_cancelOnce st) as H. unfold view_of in H. now injection H.
Qed.

(** X2.  In every execution the scan's stop function has run exactly once
    if some holder of the capability has called it or the goroutine has
    passed its deferred [cancelOnce()], and not at all otherwise: never twice,
    and never by the goroutine while it is still scanning. *)
Theorem stop_called_when_and_only_when
    (cli : Bctl) (s : Stream) (sched : list actor) :
  let st := run cli sched (started s) in
  stop_calls st =
  if existsb is_caller sched || past_gate (at_pc st) then 1 else 0.
Proof.
  intros st.
  assert (Hinv : Inv st) by apply Inv_run, Inv_started.
  destruct Hinv as (Hg & _). unfold gate_ok in Hg. rewrite Hg. clear Hg.
  assert (Hflag : once_done st = existsb is_caller sched || past_gate (at_pc st)).
  { unfold st. clear st. induction sched as [|a sched IH] using rev_ind.
    - reflexivity.
    - rewrite run_snoc, existsb_app. cbn [existsb]. rewrite orb_false_r.
      destruct a; cbn [step is_caller].
      + destruct (scanner_step_gate cli (run cli sched (started s))) as [H1 H2].
        rewrite H1, H2, IH, orb_false_r.
        destruct (existsb is_caller sched), (past_gate _),
          (at_pc (run cli sched (started s))); reflexivity.
      + rewrite cancelOnce_sets_flag. now rewrite orb_true_r. }
  now rewrite Hflag.
Qed.

(** X3.  When the target occurs in the stream, once or several times, the
    goroutine stops at its first occurrence: later events, matching or not,
    are left in the channel; [done] is closed and the scan stopped once. *)
Theorem discover_stops_at_first_of_many
    (cli : Bctl) (evs : list DeviceDiscovered) (c : bool) (sched : list actor) :
  0 < count (carries_target cli) evs ->
  first_target cli evs + 4 <= count is_scanner sched ->
  let st := run cli sched (started (mkStream evs c)) in
  at_pc st = PcExited /\
  received st = S (first_target cli evs) /\
  devices st = skipn (S (first_target cli evs)) evs /\
  done_closes st = 1 /\
  stop_calls st = 1.
Proof.
  intros Hsome Hsched st.
  assert (Hinv : Inv st) by (apply Inv_run, Inv_started).
  destruct (first_target_split cli evs Hsome) as (pre & ev & Heq & Hpre & Hev & Hlen).
  rewrite <- Hlen in *.
  set (post := skipn (S (List.length pre)) evs) in *. clearbody post.
  assert (Hv : view_of st = (post, c, PcExited, S (List.length pre))).
  { unfold st. rewrite view_run, view_started. cbn [values closed].
    replace (count is_scanner sched)
      with (S (List.length pre + 3 + (count is_scanner sched - List.length pre - 4)))
      by lia.
    rewrite Nat.iter_succ_r. cbn [scan_next].
    rewrite Heq, (scan_to_match cli pre ev post c 0 _ Hpre Hev).
    f_equal. lia. }
  unfold view_of in Hv. injection Hv as H1 _ H3 H4.
  destruct (exited_counts st Hinv H3) as [Hc Hs].
  auto.
Qed.

Lemma discover_stops_at_first_of_many_witness :
  let evs := scenario_events ++ scenario_events in
  let st := run scenario_cli scenario_schedule (started (mkStream evs false)) in
  count (carries_target scenario_cli) evs = 2 /\
  at_pc st = PcExited /\ received st = 3 /\
  devices st = scenario_events /\ done_closes st = 1 /\ stop_calls st = 1.
Proof.
  intros evs st. split; [reflexivity|].
  apply (discover_stops_at_first_of_many scenario_cli evs false scenario_schedule);
    vm_compute; lia.
Defined.

Lemma count_snoc {A : Type} (p : A -> bool) (l : list A) (x : A) :
  count p (l ++ [x]) = count p l + (if p x then 1 else 0).
Proof. rewrite count_app. unfold count. cbn. now destruct (p x). Qed.

Lemma found_emit (e : effect) (st : sys) :
  count is_found (trace (emit e st)) =
  count is_found (trace st) + (if is_found e then 1 else 0).
Proof.
  replace (trace (emit e st)) with (trace st ++ [e]) by reflexivity.
  apply count_snoc.
Qed.

Lemma found_cancelOnce (st : sys) :
  count is_found (trace (cancelOnce st)) = count is_found (trace st).
Proof.
  unfold cancelOnce, Once_Do, cancel. destruct (once_done st); [reflexivity|].
  change (trace (set_once_done (emit EffStop st))) with (trace (emit EffStop st)).
  rewrite found_emit. cbn. lia.
Qed.

Lemma scanned_line_not_found (path : string) :
  is_found (EffLog (Trace ("scanned device" ++ path))) = false.
Proof. reflexivity. Qed.

(** X4.  The line "expected device found" is in the log once when one of
    the events received so far resolved to the target, and not at all
    otherwise; this holds at every point of every execution. *)
Theorem found_logged_iff_target_received
    (cli : Bctl) (s : Stream) (sched : list actor) :
  let st := run cli sched (started s) in
  count is_found (trace st) =
  if existsb (carries_target cli) (firstn (received st) (values s)) then 1 else 0.
Proof.
  intros st.
  assert (H : (count is_found (trace st) =
               if existsb (carries_target cli) (firstn (received st) (values s))
               then 1 else 0) /\
              (searching (at_pc st) = true ->
               existsb (carries_target cli) (firstn (received st) (values s)) = false) /\
              devices st = skipn (received st) (values s)); [|apply H].
  unfold st. clear st.
  apply (run_invariant cli
    (fun st =>
       (count is_found (trace st) =
        if existsb (carries_target cli) (firstn (received st) (values s))
        then 1 else 0) /\
       (searching (at_pc st) = true ->
        existsb (carries_target cli) (firstn (received st) (values s)) = false) /\
       devices st = skipn (received st) (values s))).
  2:{ cbn. auto. }
  intros st a (Hc & Hs & Hd). destruct a; cbn [step].
  2:{ rewrite found_cancelOnce, cancelOnce_keeps_pc.
      pose proof (view_cancelOnce st) as Hv. unfold view_of in Hv.
      injection Hv as -> _ _ ->. auto. }
  unfold scanner_step. destruct (at_pc st) eqn:Hpc.
  - cbn [goto logrus emit trace received at_pc devices searching].
    rewrite count_snoc. cbn. rewrite Nat.add_0_r. auto.
  - specialize (Hs eq_refl).
    destruct (devices st) as [|ev rest] eqn:Hds.
    + destruct (devices_closed st);
        cbn [goto trace received at_pc devices searching]; rewrite ?Hpc;
        (split; [exact Hc | split; [intros; first [discriminate | exact Hs]
                                   | now rewrite Hds]]).
    + symmetry in Hd. destruct (skipn_head _ _ _ _ Hd) as (H1 & _ & H3).
      rewrite Hs in Hc.
      assert (Hex : existsb (carries_target cli)
                      (firstn (S (received st)) (values s))
                    = carries_target cli ev).
      { rewrite H3, existsb_app, Hs. cbn. now rewrite orb_false_r. }
      unfold loop_body, carries_target in *.
      destruct (NewDevice1 ev) as [d|e].
      * destruct (GetAddress d) as [addr|e].
        -- destruct (is_match cli addr).
           ++ cbn [goto logrus receive emit trace received at_pc devices searching].
              rewrite Hex, !count_snoc, Hc, scanned_line_not_found. cbn.
              repeat split; auto; discriminate.
           ++ cbn [goto logrus receive emit trace received at_pc devices searching].
              rewrite Hex, !count_snoc, Hc, scanned_line_not_found, Hpc. cbn.
              repeat split; auto.
        -- cbn [goto logrus receive emit trace received at_pc devices searching].
           rewrite Hex, !count_snoc, Hc, scanned_line_not_found, Hpc. cbn.
           repeat split; auto.
      * cbn [goto logrus receive emit trace received at_pc devices searching].
        rewrite Hex, !count_snoc, Hc, scanned_line_not_found, Hpc. cbn.
        repeat split; auto.
  - cbn [goto trace received at_pc devices searching].
    rewrite found_cancelOnce.
    pose proof (view_cancelOnce st) as Hv. unfold view_of in Hv.
    injection Hv as -> _ _ ->. repeat split; auto; discriminate.
  - cbn [goto emit trace received at_pc devices searching].
    rewrite count_snoc, Hc. cbn. rewrite Nat.add_0_r.
    repeat split; auto; discriminate.
  - rewrite Hpc. auto.
Qed.

(** X5.  Once the goroutine has exited nothing more happens: neither
    further scheduling of it nor further calls of the cancel capability
    change the state or add an effect. *)
Theorem nothing_after_exit
    (cli : Bctl) (s : Stream) (sched later : list actor) :
  at_pc (run cli sched (started s)) = PcExited ->
  run cli (sched ++ later) (started s) = run cli sched (started s).
Proof.
  intros Hpc. rewrite run_concat.
  assert (Hinv : Inv (run cli sched (started s))) by apply Inv_run, Inv_started.
  destruct Hinv as (_ & Hp & _). unfold pc_ok in Hp. rewrite Hpc in Hp.
  destruct Hp as [_ Hd].
  generalize dependent (run cli sched (started s)). intros st Hpc Hd.
  induction later as [|a later IH]; [reflexivity|].
  cbn [run fold_left]. fold (run cli later (step cli st a)).
  replace (step cli st a) with st; [exact IH|].
  destruct a; cbn.
  - unfold scanner_step. now rewrite Hpc.
  - symmetry. now apply cancelOnce_noop.
Qed.

Lemma nothing_after_exit_witness :
  run scenario_cli (scenario_schedule ++ [Caller; Scanner; Caller])
      (started (mkStream scenario_events false))
  = run scenario_cli scenario_schedule (started (mkStream scenario_events false)).
Proof.
  apply (nothing_after_exit scenario_cli (mkStream scenario_events false)
           scenario_schedule [Caller; Scanner; Caller]).
  reflexivity.
Defined.

Lemma Wait_live (ctx : Context) (pick : nat) (st : sys) :
  ctx_Err ctx = None ->
  fst (Wait ctx pick st) =
  if discoveryDone st then WaitReturned None else WaitBlocked.
Proof.
  intros Hctx. unfold Wait, wait_select, wait_ready, ctx_Done. rewrite Hctx.
  cbn [app]. destruct (discoveryDone st).
  - now rewrite go_select_single.
  - unfold go_select. now destruct (pick mod _).
Qed.

Lemma done_closed_iff_exited (cli : Bctl) (s : Stream) (sched : list actor) :
  let st := run cli sched (started s) in
  discoveryDone st = true <-> at_pc st = PcExited.
Proof.
  intros st.
  assert (Hinv : Inv st) by apply Inv_run, Inv_started.
  destruct Hinv as (_ & Hp & _). unfold pc_ok in Hp. unfold discoveryDone.
  assert (Hc : done_closes st = match at_pc st with PcExited => 1 | _ => 0 end)
    by (destruct (at_pc st); tauto).
  rewrite Hc. destruct (at_pc st); cbn; split; intros; congruence.
Qed.

(** X6.  With a live context, [Wait] called at any point of any execution
    returns [nil] when the goroutine has exited and blocks otherwise: a
    match that is found does not release the caller before the goroutine
    has gone through both deferred calls. *)
Theorem wait_follows_goroutine_exit
    (cli : Bctl) (s : Stream) (sched : list actor) (ctx : Context) (pick : nat) :
  ctx_Err ctx = None ->
  let st := run cli sched (started s) in
  (at_pc st = PcExited -> fst (Wait ctx pick st) = WaitReturned None) /\
  (at_pc st <> PcExited -> fst (Wait ctx pick st) = WaitBlocked).
Proof.
  intros Hctx st.
  pose proof (done_closed_iff_exited cli s sched) as Hiff. fold st in Hiff.
  cbv zeta in Hiff. rewrite (Wait_live ctx pick st Hctx).
  split; intros Hpc.
  - apply Hiff in Hpc. now rewrite Hpc.
  - destruct (discoveryDone st) eqn:Hd; [|reflexivity].
    exfalso. now apply Hpc, Hiff.
Qed.

Lemma wait_follows_goroutine_exit_witness :
  let s := mkStream scenario_events false in
  fst (Wait (mkContext None) 0 (run scenario_cli scenario_schedule (started s)))
    = WaitReturned None /\
  fst (Wait (mkContext None) 0 (run scenario_cli [Scanner; Scanner; Scanner] (started s)))
    = WaitBlocked.
Proof.
  intros s. split.
  - apply (wait_follows_goroutine_exit scenario_cli s scenario_schedule
             (mkContext None) 0 eq_refl). reflexivity.
  - apply (wait_follows_goroutine_exit scenario_cli s [Scanner; Scanner; Scanner]
             (mkContext None) 0 eq_refl). discriminate.
Defined.

(** ** Runs of the orchestrator *)

Lemma Connect_run_record (cli : Bctl) (ctx0 : Context) (script : list Iteration) :
  let r := Connect cli ctx0 script in
  logged r = retry_messages (attempts r) /\
  Forall (fun a => outcome a <> None) (removelast (attempts r)) /\
  (result_of r = Returned None <->
   exists pre a, attempts r = pre ++ [a] /\ outcome a = None).
Proof.
  unfold Connect. destruct (GetAdapterID (adapter cli)) as [adapterID|err].
  - destruct (retry_loop_record cli adapterID script (mkChans ctx0 false true) [] [])
      as (new & Ha & Hl & Hall & Hres).
    cbn [app] in Ha, Hl. cbv zeta. rewrite Ha, Hl. auto.
  - cbn. repeat split; auto; try discriminate.
    intros (pre & a & H & _). destruct pre; discriminate.
Qed.

Lemma retry_loop_attempts_connect (cli : Bctl) (adapterID : string)
    (script : list Iteration) :
  forall (ch : chans) (done : list Attempted) (lg : list Entry),
    Forall (fun a => exists nd, connect cli nd adapterID = (outcome a, actions a)) done ->
    Forall (fun a => exists nd, connect cli nd adapterID = (outcome a, actions a))
           (attempts (retry_loop cli adapterID script ch done lg)).
Proof.
  induction script as [|it script IH]; intros ch done lg Hd; [exact Hd|].
  cbn [retry_loop].
  destruct (select_next it (arrive it ch)) as [[c w] ch'].
  destruct (connect cli (NewDevice it) adapterID) as [[err|] acts] eqn:Hconn.
  - destruct c; [exact Hd | |]; apply IH, Forall_app; split; auto;
      constructor; [|constructor| |constructor]; now exists (NewDevice it).
  - destruct c; [exact Hd | |]; cbn [attempts]; apply Forall_app; split; auto;
      constructor; [|constructor| |constructor]; now exists (NewDevice it).
Qed.

Lemma attempt_lines_connect (cli : Bctl) (adapterID : string) (a : Attempted) :
  (exists nd, connect cli nd adapterID = (outcome a, actions a)) ->
  attempt_lines a =
  match outcome a with
  | Some e => [retry_message e]
  | None => [Info "device connected successfully"]
  end.
Proof.
  intros [nd H]. rewrite connect_cases in H. unfold attempt_lines.
  destruct (nd adapterID (target_address cli)) as [d|e0];
    [destruct (GetPaired d) as [[|]|e1];
       [destruct (Attempt.Connect d) as [e2|]
       |destruct (Pair d) as [e2|]; [|destruct (Attempt.Connect d) as [e3|]]
       |]
    |];
    injection H as <- <-; reflexivity.
Qed.

(** X7.  The log of a call of [Connect] holds exactly one line per attempt,
    in order: for a failed attempt the info line "try to connect" with the
    attempt's error and the retry interval, for the successful one "device
    connected successfully"; the loop's own lines are the retry lines of the
    failed attempts, and neither waiting nor cancellation adds a line. *)
Theorem connect_logs_each_attempt
    (cli : Bctl) (ctx0 : Context) (script : list Iteration) :
  let r := Connect cli ctx0 script in
  Connect_log r =
    map (fun a => match outcome a with
                  | Some e => mkEntry InfoLevel "try to connect" (Some e)
                                      (Some 3000000000%N)
                  | None => Info "device connected successfully"
                  end) (attempts r) /\
  logged r = retry_messages (attempts r) /\
  logged r = filter is_retry_message (Connect_log r).
Proof.
  intros r. destruct (Connect_run_record cli ctx0 script) as (Hl & _).
  fold r in Hl.
  assert (Hall : Forall (fun a => attempt_lines a =
                           match outcome a with
                           | Some e => [retry_message e]
                           | None => [Info "device connected successfully"]
                           end) (attempts r)).
  { unfold r, Connect. destruct (GetAdapterID (adapter cli)) as [adapterID|err];
      [|constructor].
    pose proof (retry_loop_attempts_connect cli adapterID script
                  (mkChans ctx0 false true) [] [] (Forall_nil _)) as H.
    revert H. apply Forall_impl. intros a. apply attempt_lines_connect. }
  assert (Hlog : Connect_log r =
    map (fun a => match outcome a with
                  | Some e => mkEntry InfoLevel "try to connect" (Some e)
                                      (Some 3000000000%N)
                  | None => Info "device connected successfully"
                  end) (attempts r)).
  { unfold Connect_log. revert Hall. generalize (attempts r). intros l Hall.
    induction Hall as [|a l Ha _ IH]; [reflexivity|].
    cbn [flat_map map]. rewrite Ha, IH. now destruct (outcome a). }
  split; [exact Hlog|]. split; [exact Hl|].
  rewrite Hl, Hlog. unfold retry_messages.
  generalize (attempts r). intros l. induction l as [|a l IH]; [reflexivity|].
  cbn [flat_map map filter]. destruct (outcome a); cbn; now rewrite IH.
Qed.

(** X8.  [Connect] stops at the first attempt that succeeds: in every run
    all attempts but the last have failed, and the call has returned [nil]
    exactly when the last attempt made succeeded. *)
Theorem connect_stops_at_first_success
    (cli : Bctl) (ctx0 : Context) (script : list Iteration) :
  let r := Connect cli ctx0 script in
  Forall (fun a => outcome a <> None) (removelast (attempts r)) /\
  (result_of r = Returned None <->
   exists pre a, attempts r = pre ++ [a] /\ outcome a = None).
Proof.
  intros r. destruct (Connect_run_record cli ctx0 script) as (_ & Hall & Hres).
  auto.
Qed.

Lemma select_next_ctx (it : Iteration) (ch : chans) (e : error) :
  ctx_Err (ctx (snd (select_next it (arrive it ch)))) = Some e ->
  ctx_Err (ctx ch) = Some e \/ cancelled it = Some e \/ wake it = Some e.
Proof.
  assert (Harr : ctx_Err (ctx (arrive it ch)) = Some e ->
                 ctx_Err (ctx ch) = Some e \/ cancelled it = Some e).
  { unfold arrive, ctx_Done. cbn [ctx].
    destruct (ctx_Err (ctx ch)) eqn:Hc; cbn; [left; congruence | now right]. }
  unfold select_next.
  destruct (go_select (ready (arrive it ch)) (pick it)) as [[| |]|]; cbn [snd ctx].
  1,2,3: intros H; apply Harr in H; tauto.
  destruct (wake it) as [e'|]; cbn [snd ctx ctx_Err].
  - intros H. right. right. exact H.
  - intros H; apply Harr in H; tauto.
Qed.

Lemma retry_loop_error (cli : Bctl) (adapterID : string) (e : error)
    (script : list Iteration) :
  forall (ch : chans) (done : list Attempted) (lg : list Entry),
    result_of (retry_loop cli adapterID script ch done lg) = Returned (Some e) ->
    In e (cancellations (ctx ch) script).
Proof.
  unfold cancellations.
  induction script as [|it script IH]; intros ch done lg; [discriminate|].
  cbn [retry_loop flat_map].
  pose proof (select_next_ctx it ch e) as Hctx.
  destruct (select_next it (arrive it ch)) as [[c w] ch'] eqn:Hsel.
  cbn [snd] in Hctx.
  assert (Hhere : ctx_Err (ctx ch') = Some e ->
    In e ((match ctx_Err (ctx ch) with Some e0 => [e0] | None => [] end) ++
          ((match cancelled it with Some e0 => [e0] | None => [] end) ++
           (match wake it with Some e0 => [e0] | None => [] end)) ++
          flat_map (fun it0 =>
             (match cancelled it0 with Some e0 => [e0] | None => [] end) ++
             (match wake it0 with Some e0 => [e0] | None => [] end)) script)).
  { intros H. apply Hctx in H. rewrite !in_app_iff.
    destruct H as [H|[H|H]]; rewrite H; cbn; tauto. }
  assert (Hlater : forall done' lg',
    result_of (retry_loop cli adapterID script ch' done' lg') = Returned (Some e) ->
    In e ((match ctx_Err (ctx ch) with Some e0 => [e0] | None => [] end) ++
          ((match cancelled it with Some e0 => [e0] | None => [] end) ++
           (match wake it with Some e0 => [e0] | None => [] end)) ++
          flat_map (fun it0 =>
             (match cancelled it0 with Some e0 => [e0] | None => [] end) ++
             (match wake it0 with Some e0 => [e0] | None => [] end)) script)).
  { intros done' lg' H. apply IH in H. apply in_app_or in H.
    destruct H as [H|H].
    - destruct (ctx_Err (ctx ch')) as [e'|] eqn:He'; [|contradiction].
      destruct H as [<-|[]]. now apply Hhere.
    - rewrite !in_app_iff. tauto. }
  destruct (connect cli (NewDevice it) adapterID) as [[err|] acts].
  - destruct c; cbn [result_of]; intros H;
      [injection H as H; now apply Hhere | now apply Hlater in H ..].
  - destruct c; cbn [result_of]; intros H;
      [injection H as H; now apply Hhere | discriminate ..].
Qed.

(** X9.  [Connect] never hands an attempt's error to its caller.  An error
    it returns is either the wrapped failure of reading the adapter
    identifier or a cancellation error of the context. *)
Theorem connect_error_is_setup_or_cancellation
    (cli : Bctl) (ctx0 : Context) (script : list Iteration) (e : error) :
  result_of (Connect cli ctx0 script) = Returned (Some e) ->
  (exists err, GetAdapterID (adapter cli) = Err err /\
               e = ErrWrap "get adapter id" err) \/
  (exists adapterID, GetAdapterID (adapter cli) = Ok adapterID /\
                     In e (cancellations ctx0 script)).
Proof.
  unfold Connect. destruct (GetAdapterID (adapter cli)) as [adapterID|err].
  - intros H. right. exists adapterID. split; [reflexivity|].
    exact (retry_loop_error cli adapterID e script _ _ _ H).
  - cbn. intros H. injection H as <-. left. now exists err.
Qed.

Lemma connect_error_is_setup_or_cancellation_witness :
  let script := [on_tick busy_device;
                 mkIteration (Some Canceled) false 0 None (fun _ _ => Ok busy_device)] in
  result_of (Connect scenario_cli (mkContext None) script) = Returned (Some Canceled) /\
  In Canceled (cancellations (mkContext None) script).
Proof.
  intros script. split; [reflexivity|].
  destruct (connect_error_is_setup_or_cancellation scenario_cli (mkContext None)
              script Canceled eq_refl) as [(err & H & _)|(id & _ & H)].
  - discriminate H.
  - exact H.
Defined.

Lemma select_next_once (it : Iteration) (ch : chans) :
  let '(c, _, ch') := select_next it ch in
  match c with
  | CaseOnce => once ch = true /\ once ch' = false
  | CaseTick => once ch' = once ch
  | CaseCtxDone => True
  end.
Proof.
  unfold select_next.
  destruct (go_select (ready ch) (pick it)) as [c|] eqn:Hsel.
  - destruct c; cbn; auto. split; [|reflexivity].
    apply go_select_In in Hsel. unfold ready in Hsel.
    destruct (once ch); [reflexivity|]. exfalso.
    rewrite !in_app_iff in Hsel.
    destruct (ctx_Done (ctx ch)), (tick_C ch); cbn in Hsel;
      intuition discriminate.
  - destruct (wake it); cbn; auto.
Qed.

Lemma retry_loop_once (cli : Bctl) (adapterID : string) (script : list Iteration) :
  forall (ch : chans) (done : list Attempted) (lg : list Entry),
    count by_once (attempts (retry_loop cli adapterID script ch done lg))
    <= count by_once done + (if once ch then 1 else 0).
Proof.
  induction script as [|it script IH]; intros ch done lg;
    [cbn [retry_loop attempts]; lia|].
  cbn [retry_loop].
  pose proof (select_next_once it (arrive it ch)) as Hsel.
  destruct (select_next it (arrive it ch)) as [[c w] ch'].
  change (once (arrive it ch)) with (once ch) in Hsel.
  destruct (connect cli (NewDevice it) adapterID) as [[err|] acts].
  - destruct c; cbn [attempts]; [lia | |].
    + specialize (IH ch' (done ++ [mkAttempted CaseTick w acts (Some err)])
                     (lg ++ [retry_message err])).
      rewrite count_snoc, Hsel in IH. cbn in IH. lia.
    + specialize (IH ch' (done ++ [mkAttempted CaseOnce w acts (Some err)])
                     (lg ++ [retry_message err])).
      destruct Hsel as [H1 H2]. rewrite count_snoc, H2 in IH. rewrite H1.
      cbn in IH. lia.
  - destruct c; cbn [attempts]; [lia | |]; rewrite count_snoc; cbn; [lia|].
    destruct Hsel as [H1 _]. rewrite H1. lia.
Qed.

(** X10.  The immediate token is spent at most once: in every run at most
    one attempt is triggered by the [once] channel, every other attempt by a
    tick of the ticker. *)
Theorem immediate_token_used_once
    (cli : Bctl) (ctx0 : Context) (script : list Iteration) :
  let r := Connect cli ctx0 script in
  count by_once (attempts r) <= 1 /\
  Forall (fun a => trigger a = CaseOnce \/ trigger a = CaseTick) (attempts r).
Proof.
  intros r. unfold r, Connect.
  destruct (GetAdapterID (adapter cli)) as [adapterID|err];
    [|cbn; split; [lia | constructor]].
  split.
  - pose proof (retry_loop_once cli adapterID script (mkChans ctx0 false true) [] [])
      as H. cbn in H. exact H.
  - assert (Hgen : forall ch done lg,
      Forall (fun a => trigger a = CaseOnce \/ trigger a = CaseTick) done ->
      Forall (fun a => trigger a = CaseOnce \/ trigger a = CaseTick)
             (attempts (retry_loop cli adapterID script ch done lg))).
    { induction script as [|it script IH]; intros ch done lg Hd; [exact Hd|].
      cbn [retry_loop].
      destruct (select_next it (arrive it ch)) as [[c w] ch'].
      destruct (connect cli (NewDevice it) adapterID) as [[err|] acts].
      - destruct c; [exact Hd | |]; apply IH, Forall_app; split; auto;
          constructor; cbn; auto.
      - destruct c; [exact Hd | |]; cbn [attempts]; apply Forall_app; split;
          auto; constructor; cbn; auto. }
    apply Hgen. constructor.
Qed.





(** X12.  There is no bound on the number of attempts: as long as the
    context is live and attempts fail, [Connect] has not returned, and it has
    made one attempt and logged one retry message for every turn of its
    loop. *)
Theorem connect_retries_without_bound
    (cli : Bctl) (adapterID : string) (ctx0 : Context) (script : list Iteration) :
  GetAdapterID (adapter cli) = Ok adapterID ->
  ctx_Err ctx0 = None ->
  Forall (fun it => undisturbed it /\
                    fst (connect cli (NewDevice it) adapterID) <> None) script ->
  let r := Connect cli ctx0 script in
  result_of r = Retrying /\
  List.length (attempts r) = List.length script /\
  List.length (logged r) = List.length script.
Proof.
  intros Hid Hctx Hall r. unfold r, Connect. rewrite Hid.
  assert (Hgen : forall ch done lg,
    ctx_Err (ctx ch) = None ->
    let r := retry_loop cli adapterID script ch done lg in
    result_of r = Retrying /\
    List.length (attempts r) = List.length done + List.length script /\
    List.length (logged r) = List.length lg + List.length script).
  { clear Hctx. induction Hall as [|it script [Hu Hfail] _ IH];
      intros ch done lg Hctx.
    - cbn. auto.
    - cbn [retry_loop].
      destruct (select_next_live it ch Hctx Hu) as (c & w & ch' & Hsel & Hc & Hctx' & _).
      rewrite Hsel.
      destruct (connect cli (NewDevice it) adapterID) as [[err|] acts];
        [|cbn in Hfail; congruence].
      destruct (IH ch' (done ++ [mkAttempted c w acts (Some err)])
                   (lg ++ [retry_message err]) Hctx') as (H1 & H2 & H3).
      rewrite !length_app in H2, H3. cbn [List.length] in *.
      destruct c; [congruence | |]; repeat split; auto; lia. }
  destruct (Hgen (mkChans ctx0 false true) [] [] Hctx) as (H1 & H2 & H3).
  auto.
Qed.

Lemma connect_retries_without_bound_witness :
  let script := repeat (on_tick busy_device) 5 in
  let r := Connect scenario_cli (mkContext None) script in
  result_of r = Retrying /\ List.length (attempts r) = 5 /\
  List.length (logged r) = 5.
Proof.
  intros script.
  apply (connect_retries_without_bound scenario_cli "hci0" (mkContext None) script);
    try reflexivity.
  repeat constructor; discriminate.
Defined.

(** ** The attempt's log line *)

(** X13.  An attempt logs "device connected successfully" exactly when it
    returns [nil], and then as its last action; a failed attempt logs
    nothing. *)
Theorem connect_logs_success_only
    (cli : Bctl) (NewDevice : string -> string -> result Device)
    (adapterID : string) :
  let r := connect cli NewDevice adapterID in
  (In success_line (snd r) <-> fst r = None) /\
  (fst r = None -> exists reqs, snd r = reqs ++ [success_line] /\
                                requests_of (snd r) = reqs) /\
  (fst r <> None -> requests_of (snd r) = snd r).
Proof.
  intros r. unfold r. rewrite connect_cases. unfold success_line.
  destruct (NewDevice adapterID (target_address cli)) as [d|e0];
    [destruct (GetPaired d) as [[|]|e1];
       [destruct (Attempt.Connect d) as [e2|]
       |destruct (Pair d) as [e2|]; [|destruct (Attempt.Connect d) as [e3|]]
       |]
    |];
    cbn [fst snd]; (split; [split; intros H|split; intros H]);
    try discriminate; try congruence; try reflexivity;
    try (cbn in H; intuition discriminate);
    try (cbn; tauto);
    try (eexists; split; [|reflexivity];
         match goal with
         | |- ?l = _ => change l with (removelast l ++ [last l success_line])
         end; reflexivity).
Qed.

(** ** The command's action *)

Lemma Wait_state (ctx : Context) (pick : nat) (st : sys) :
  snd (Wait ctx pick st) = st.
Proof. unfold Wait. now destruct (wait_select ctx pick st) as [[|]|]. Qed.

Lemma Wait_cancelled (ctx : Context) (pick : nat) (st : sys) :
  ctx_Err ctx <> None -> exists r, Wait ctx pick st = (WaitReturned r, st).
Proof.
  intros Hctx. unfold Wait, wait_select.
  destruct (go_select_ready (wait_ready ctx st) pick) as [c Hc].
  - unfold wait_ready, ctx_Done. destruct (ctx_Err ctx); [discriminate | congruence].
  - rewrite Hc. destruct c; eexists; reflexivity.
Qed.

(** The state a blocking [Wait] ends in is reached by goroutine steps
    only. *)
Lemma Wait_blocking_state (cli : Bctl) (pick : nat) (events : list wait_event) :
  forall (ctx : Context) (st : sys),
    exists n, snd (Wait_blocking cli ctx pick events st)
              = run cli (repeat Scanner n) st.
Proof.
  induction events as [|ev events IH]; intros ctx st; cbn [Wait_blocking].
  - pose proof (Wait_state ctx pick st) as Hs.
    destruct (Wait ctx pick st) as [[|r] st']; cbn in *; exists 0; cbn;
      congruence.
  - pose proof (Wait_state ctx pick st) as Hs.
    destruct (Wait ctx pick st) as [[|r] st']; cbn [snd] in *.
    + destruct ev as [|e].
      * destruct (IH ctx (scanner_step cli st)) as [n Hn]. exists (S n). exact Hn.
      * apply IH.
    + exists 0. cbn. congruence.
Qed.

Lemma Inv_Wait_blocking (cli : Bctl) (ctx : Context) (pick : nat)
    (events : list wait_event) (st : sys) :
  Inv st -> Inv (snd (Wait_blocking cli ctx pick events st)).
Proof.
  intros H. destruct (Wait_blocking_state cli pick events ctx st) as [n ->].
  now apply Inv_run.
Qed.

Lemma once_done_Wait_blocking (cli : Bctl) (ctx : Context) (pick : nat)
    (events : list wait_event) (st : sys) :
  once_done st = true ->
  once_done (snd (Wait_blocking cli ctx pick events st)) = true.
Proof.
  intros H. destruct (Wait_blocking_state cli pick events ctx st) as [n ->].
  now apply once_done_run.
Qed.

Lemma stopped_once (st : sys) : Inv st -> once_done st = true -> stop_calls st = 1.
Proof. intros (Hg & _) Hd. unfold gate_ok in Hg. now rewrite Hd in Hg. Qed.

(** What the two deferred calls leave behind. *)
Lemma deferred_cases (cli : Bctl) (w : World) (ctx1 : Context)
    (err : option error) (st : sys) :
  Inv st ->
  (exists st', deferred cli w ctx1 err st = Exit err (Some st') /\
               Inv st' /\ once_done st' = true) \/
  (exists st', deferred cli w ctx1 err st = InWait err st' /\ Inv st' /\
               (once_done st = true -> once_done st' = true)).
Proof.
  intros Hinv. unfold deferred.
  pose proof (Inv_Wait_blocking cli ctx1 (w_pick w) (w_waiting w) st Hinv) as Hi.
  pose proof (once_done_Wait_blocking cli ctx1 (w_pick w) (w_waiting w) st) as Ho.
  destruct (Wait_blocking cli ctx1 (w_pick w) (w_waiting w) st) as [[|r] st'];
    cbn [snd] in *.
  - right. exists st'. auto.
  - left. eexists. split; [reflexivity|]. split.
    + now apply Inv_cancelOnce, Inv_run.
    + apply cancelOnce_sets_flag.
Qed.

(** X14.  Whenever the action returns after discovery was started, on the
    success path and on every error path alike, the scan's stop function has
    run exactly once. *)
Theorem action_always_stops_scan (w : World) (err : option error) (st : sys) :
  Action w = Exit err (Some st) -> stop_calls st = 1.
Proof.
  unfold Action.
  destruct (Init (w_mac w) (w_adapter w)) as [cli|e]; [|discriminate].
  destruct (Discover (w_discover w)) as [st0|e] eqn:Hd; [|discriminate].
  apply Discover_started in Hd. destruct Hd as (s & _ & ->).
  assert (H1 : Inv (run cli (repeat Scanner (w_during_connect w)) (started s)))
    by apply Inv_run, Inv_started.
  destruct (result_of (Connect cli (w_ctx w) (w_script w))) as [[e|]|];
    [| |discriminate].
  - destruct (deferred_cases cli w (Connect_ctx cli (w_ctx w) (w_script w))
                (Some e) _ H1) as [(st' & -> & Hi & Ho)|(st' & -> & _)];
      [|discriminate].
    intros H. injection H as _ <-. now apply stopped_once.
  - destruct (deferred_cases cli w (Connect_ctx cli (w_ctx w) (w_script w))
                None _ (Inv_cancelOnce _ H1)) as [(st' & -> & Hi & Ho)|(st' & -> & _)];
      [|discriminate].
    intros H. injection H as _ <-. now apply stopped_once.
Qed.

Lemma action_always_stops_scan_witness :
  exists st,
    Action (scenario_world (mkStream scenario_events false) scenario_script
                           [Progress; Progress; Progress; Progress])
    = Exit None (Some st) /\ stop_calls st = 1.
Proof.
  eexists. split; [vm_compute; reflexivity|].
  apply (action_always_stops_scan
           (scenario_world (mkStream scenario_events false) scenario_script
                           [Progress; Progress; Progress; Progress]) None).
  vm_compute. reflexivity.
Defined.

Lemma run_scanner_succ (cli : Bctl) (n : nat) (st : sys) :
  run cli (repeat Scanner (S n)) st = run cli (repeat Scanner n) (scanner_step cli st).
Proof. reflexivity. Qed.

Lemma Wait_blocking_open (cli : Bctl) (ctx : Context) (pick : nat)
    (events : list wait_event) :
  forall st,
    ctx_Err ctx = None ->
    (forall k, discoveryDone (run cli (repeat Scanner k) st) = false) ->
    Forall (fun ev => ev = Progress) events ->
    Wait_blocking cli ctx pick events st
    = (WaitBlocked, run cli (repeat Scanner (List.length events)) st).
Proof.
  induction events as [|ev events IH]; intros st Hctx Hopen Hev;
    cbn [Wait_blocking].
  - pose proof (Wait_live ctx pick st Hctx) as Hw.
    pose proof (Wait_state ctx pick st) as Hs.
    pose proof (Hopen 0) as H0.
    change (run cli (repeat Scanner 0) st) with st in H0. rewrite H0 in Hw.
    destruct (Wait ctx pick st) as [r st']. cbn in Hw, Hs. now subst.
  - pose proof (Wait_live ctx pick st Hctx) as Hw.
    pose proof (Wait_state ctx pick st) as Hs.
    pose proof (Hopen 0) as H0.
    change (run cli (repeat Scanner 0) st) with st in H0. rewrite H0 in Hw.
    destruct (Wait ctx pick st) as [r st']. cbn in Hw, Hs. subst.
    inversion Hev as [|? ? -> Hrest]; subst.
    cbn [List.length]. rewrite run_scanner_succ.
    apply IH; auto.
    intros k. rewrite <- run_scanner_succ. apply Hopen.
Qed.

Lemma scanner_only_gate (cli : Bctl) (s : Stream) (n : nat) :
  let st := run cli (repeat Scanner n) (started s) in
  once_done st = past_gate (at_pc st).
Proof.
  induction n as [|n IH]; [reflexivity|].
  cbv zeta in *.
  replace (repeat Scanner (S n)) with (repeat Scanner n ++ [Scanner])
    by (symmetry; apply (repeat_cons n Scanner)).
  rewrite run_snoc. cbn [step].
  destruct (scanner_step_gate cli (run cli (repeat Scanner n) (started s)))
    as [H1 H2].
  now rewrite H1, H2, IH.
Qed.

Lemma open_stream_keeps_searching
    (cli : Bctl) (evs : list DeviceDiscovered) (sched : list actor) :
  count (carries_target cli) evs = 0 ->
  searching (at_pc (run cli sched (started (mkStream evs false)))) = true.
Proof.
  intros Hnone.
  assert (Hv := view_run cli sched (started (mkStream evs false))).
  rewrite view_started in Hv. cbn [values closed] in Hv. unfold view_of in Hv.
  destruct (count is_scanner sched) as [|n].
  - cbn in Hv. injection Hv as _ _ -> _. reflexivity.
  - rewrite Nat.iter_succ_r in Hv. cbn [scan_next] in Hv.
    destruct (scan_open_range cli n evs 0 (count_zero_forallb _ _ Hnone))
      as (ds' & r' & Heq).
    rewrite Heq in Hv. injection Hv as _ _ -> _. reflexivity.
Qed.

(** X16.  When the adapter identifier cannot be read, [Connect] fails at
    once, but the action does not return: its deferred [Wait] runs before its
    deferred [cancel()].  With a live context and a scan that never yields
    the target the action stays blocked in [Wait], the error unreported and
    the scan never stopped. *)
Theorem action_hangs_after_adapter_id_failure
    (w : World) (a : Adapter1) (e : error) (evs : list DeviceDiscovered) :
  w_adapter w = Ok a ->
  GetAdapterID a = Err e ->
  w_discover w = Ok (mkStream evs false) ->
  count (carries_target (mkBctl (w_mac w) a)) evs = 0 ->
  ctx_Err (w_ctx w) = None ->
  Forall (fun ev => ev = Progress) (w_waiting w) ->
  exists st,
    Action w = InWait (Some (ErrWrap "get adapter id" e)) st /\
    stop_calls st = 0 /\ done_closes st = 0 /\ searching (at_pc st) = true.
Proof.
  intros Ha Hid Hd Hnone Hctx Hev.
  unfold Action, Init. rewrite Ha, Hd. cbn [Discover].
  set (cli := mkBctl (w_mac w) a) in *.
  unfold Connect, Connect_ctx. cbn [adapter cli]. rewrite Hid. cbn [result_of].
  set (s := mkStream evs false).
  assert (Hopen : forall n,
    let st := run cli (repeat Scanner n) (started s) in
    at_pc st <> PcExited /\ done_closes st = 0)
    by (intros n; apply open_stream_never_completes; exact Hnone).
  unfold deferred.
  rewrite Wait_blocking_open; auto.
  - rewrite <- run_concat, <- repeat_app.
    set (n := w_during_connect w + List.length (w_waiting w)).
    eexists. split; [reflexivity|].
    destruct (Hopen n) as [_ Hc].
    pose proof (scanner_only_gate cli s n) as Hg. cbv zeta in Hg.
    pose proof (open_stream_keeps_searching cli evs (repeat Scanner n) Hnone) as Hs.
    fold s in Hs.
    assert (Hinv : Inv (run cli (repeat Scanner n) (started s)))
      by apply Inv_run, Inv_started.
    destruct Hinv as (Hgate & _). unfold gate_ok in Hgate.
    rewrite Hg in Hgate.
    destruct (at_pc (run cli (repeat Scanner n) (started s)));
      cbn in Hs, Hgate; try discriminate; auto.
  - intros k. rewrite <- run_concat, <- repeat_app.
    destruct (Hopen (w_during_connect w + k)) as [_ Hc].
    unfold discoveryDone. now rewrite Hc.
Qed.

Lemma action_hangs_after_adapter_id_failure_witness :
  let w := mkWorld scenario_target (Ok broken_adapter)
                   (Ok (mkStream [unreachable_event; nameless_event] false))
                   (mkContext None) scenario_script 1 0
                   [Progress; Progress; Progress; Progress; Progress] 0 in
  exists st,
    Action w = InWait (Some (ErrWrap "get adapter id" (ErrNew "invalid adapter path"))) st /\
    stop_calls st = 0 /\ done_closes st = 0 /\ searching (at_pc st) = true.
Proof.
  intros w.
  apply (action_hangs_after_adapter_id_failure w broken_adapter
           (ErrNew "invalid adapter path") [unreachable_event; nameless_event]);
    try reflexivity.
  repeat constructor.
Defined.

Lemma retry_loop_ctx_cancelled (cli : Bctl) (adapterID : string) (e : error)
    (script : list Iteration) :
  forall (ch : chans) (done : list Attempted) (lg : list Entry),
    result_of (retry_loop cli adapterID script ch done lg) = Returned (Some e) ->
    ctx_Err (retry_loop_ctx cli adapterID script ch) = Some e.
Proof.
  induction script as [|it script IH]; intros ch done lg; [discriminate|].
  cbn [retry_loop retry_loop_ctx].
  destruct (select_next it (arrive it ch)) as [[c w] ch'].
  destruct (connect cli (NewDevice it) adapterID) as [[err|] acts]; cbn [fst].
  - destruct c; cbn [result_of]; intros H;
      [now injection H | now apply IH in H ..].
  - destruct c; cbn [result_of]; intros H;
      [now injection H | discriminate ..].
Qed.

(** X17.  When [Connect] ends on the context's cancellation, the action
    does not wait for the discovery: the deferred [Wait] finds the context
    cancelled, the deferred [cancel()] stops the scan, and the action returns
    the cancellation error, wherever the goroutine stands. *)
Theorem action_returns_on_cancellation
    (w : World) (a : Adapter1) (adapterID : string) (s : Stream) (e : error) :
  w_adapter w = Ok a ->
  GetAdapterID a = Ok adapterID ->
  w_discover w = Ok s ->
  result_of (Connect (mkBctl (w_mac w) a) (w_ctx w) (w_script w))
    = Returned (Some e) ->
  exists st,
    Action w = Exit (Some e) (Some st) /\
    stop_calls st = 1 /\
    In e (cancellations (w_ctx w) (w_script w)).
Proof.
  intros Ha Hid Hd Hres.
  unfold Action, Init. rewrite Ha, Hd. cbn [Discover].
  set (cli := mkBctl (w_mac w) a) in *. rewrite Hres.
  assert (Hctx : ctx_Err (Connect_ctx cli (w_ctx w) (w_script w)) = Some e).
  { unfold Connect_ctx, Connect in *. cbn [adapter cli] in *. rewrite Hid in *.
    exact (retry_loop_ctx_cancelled cli adapterID e _ _ _ _ Hres). }
  unfold deferred.
  set (st1 := run cli (repeat Scanner (w_during_connect w)) (started s)).
  destruct (Wait_cancelled (Connect_ctx cli (w_ctx w) (w_script w)) (w_pick w) st1)
    as [r Hw]; [congruence|].
  assert (Hwb : Wait_blocking cli (Connect_ctx cli (w_ctx w) (w_script w))
                  (w_pick w) (w_waiting w) st1 = (WaitReturned r, st1)).
  { destruct (w_waiting w); cbn [Wait_blocking]; now rewrite Hw. }
  rewrite Hwb. eexists. split; [reflexivity|]. split.
  - apply stopped_once; [|apply cancelOnce_sets_flag].
    apply Inv_cancelOnce, Inv_run, Inv_run, Inv_started.
  - unfold Connect in Hres. cbn [adapter cli] in Hres. rewrite Hid in Hres.
    exact (retry_loop_error cli adapterID e _ _ _ _ Hres).
Qed.

Lemma action_returns_on_cancellation_witness :
  let late := mkIteration None false 0 (Some Canceled) (fun _ _ => Ok reachable_device) in
  let w := scenario_world (mkStream [unreachable_event] false)
                          [on_tick busy_device; late] [] in
  exists st, Action w = Exit (Some Canceled) (Some st) /\ stop_calls st = 1 /\
             In Canceled (cancellations (w_ctx w) (w_script w)).
Proof.
  intros late w.
  apply (action_returns_on_cancellation w (mkAdapter1 (Ok "hci0")) "hci0"
           (mkStream [unreachable_event] false) Canceled); reflexivity.
Defined.

(** X18.  The action returns [nil] only after [Connect] returned [nil], and
    then the explicit [cancel()] has run before the deferred [Wait]: even
    while the action is still blocked in that [Wait], the scan's stop
    function has already run exactly once. *)
Theorem action_success_path (w : World) :
  (forall scan, Action w = Exit None scan ->
     exists cli st,
       Init (w_mac w) (w_adapter w) = Ok cli /\ scan = Some st /\
       result_of (Connect cli (w_ctx w) (w_script w)) = Returned None) /\
  (forall st, Action w = InWait None st -> stop_calls st = 1).
Proof.
  unfold Action.
  destruct (Init (w_mac w) (w_adapter w)) as [cli|e];
    [|split; intros; discriminate].
  destruct (Discover (w_discover w)) as [st0|e] eqn:Hd;
    [|split; intros; discriminate].
  apply Discover_started in Hd. destruct Hd as (s & _ & ->).
  assert (H1 : Inv (run cli (repeat Scanner (w_during_connect w)) (started s)))
    by apply Inv_run, Inv_started.
  destruct (result_of (Connect cli (w_ctx w) (w_script w))) as [[e|]|] eqn:Hres;
    [| |split; intros; discriminate].
  - destruct (deferred_cases cli w (Connect_ctx cli (w_ctx w) (w_script w))
                (Some e) _ H1) as [(st' & -> & _)|(st' & -> & _)];
      split; intros; discriminate.
  - destruct (deferred_cases cli w (Connect_ctx cli (w_ctx w) (w_script w))
                None _ (Inv_cancelOnce _ H1))
      as [(st' & -> & Hi & Ho)|(st' & -> & Hi & Ho)].
    + split; [|intros; discriminate].
      intros scan H. injection H as <-. exists cli, st'. auto.
    + split; [intros; discriminate|].
      intros st H. injection H as <-. apply stopped_once; [exact Hi|].
      apply Ho, cancelOnce_sets_flag.
Qed.

Lemma Wait_blocking_first (cli : Bctl) (ctx : Context) (pick : nat)
    (events : list wait_event) (st : sys) (r : option error) :
  Wait ctx pick st = (WaitReturned r, st) ->
  Wait_blocking cli ctx pick events st = (WaitReturned r, st).
Proof. intros H. destruct events; cbn [Wait_blocking]; now rewrite H. Qed.

Lemma Wait_blocking_released (cli : Bctl) (pick : nat) (events : list wait_event) :
  forall (ctx : Context) (st : sys),
    (exists e, In (Cancelled e) events) ->
    exists r st', Wait_blocking cli ctx pick events st = (WaitReturned r, st').
Proof.
  induction events as [|ev events IH]; intros ctx st [e Hin]; [contradiction|].
  cbn [Wait_blocking].
  pose proof (Wait_state ctx pick st) as Hs.
  destruct (Wait ctx pick st) as [[|r] st0]; [|now exists r, st0].
  destruct ev as [|e'].
  - destruct Hin as [Hin|Hin]; [discriminate|]. apply IH. now exists e.
  - destruct (Wait_cancelled (mkContext (Some e')) pick st) as [r Hw];
      [discriminate|].
    exists r, st. now apply Wait_blocking_first.
Qed.

(** X19.  A cancellation releases the action from its deferred [Wait]:
    whatever [Connect] returned and wherever the goroutine stands, once the
    context is cancelled the action returns what [Connect] returned, with
    the scan stopped. *)
Theorem action_released_by_cancellation
    (w : World) (a : Adapter1) (s : Stream) (r : option error) :
  w_adapter w = Ok a ->
  w_discover w = Ok s ->
  result_of (Connect (mkBctl (w_mac w) a) (w_ctx w) (w_script w)) = Returned r ->
  (exists e, In (Cancelled e) (w_waiting w)) ->
  exists st, Action w = Exit r (Some st) /\ stop_calls st = 1.
Proof.
  intros Ha Hd Hres Hcan.
  unfold Action, Init. rewrite Ha, Hd. cbn [Discover].
  set (cli := mkBctl (w_mac w) a) in *. rewrite Hres.
  assert (H1 : Inv (run cli (repeat Scanner (w_during_connect w)) (started s)))
    by apply Inv_run, Inv_started.
  assert (Hgen : forall st1, Inv st1 ->
    exists st, deferred cli w (Connect_ctx cli (w_ctx w) (w_script w)) r st1
               = Exit r (Some st) /\ stop_calls st = 1).
  { intros st1 Hi.
    destruct (deferred_cases cli w (Connect_ctx cli (w_ctx w) (w_script w)) r st1 Hi)
      as [(st' & Heq & Hi' & Ho)|(st' & Heq & _)].
    - exists st'. split; [exact Heq | now apply stopped_once].
    - exfalso. unfold deferred in Heq.
      destruct (Wait_blocking_released cli (w_pick w) (w_waiting w)
                  (Connect_ctx cli (w_ctx w) (w_script w)) st1 Hcan)
        as (r' & st'' & Hw).
      rewrite Hw in Heq. discriminate. }
  destruct r as [e|]; [now apply Hgen | now apply Hgen, Inv_cancelOnce].
Qed.

Lemma action_released_by_cancellation_witness :
  let w := mkWorld scenario_target (Ok broken_adapter)
                   (Ok (mkStream [unreachable_event; nameless_event] false))
                   (mkContext None) scenario_script 1 0
                   [Progress; Progress; Cancelled Canceled; Progress] 0 in
  exists st,
    Action w = Exit (Some (ErrWrap "get adapter id" (ErrNew "invalid adapter path")))
                    (Some st) /\
    stop_calls st = 1.
Proof.
  intros w.
  apply (action_released_by_cancellation w broken_adapter
           (mkStream [unreachable_event; nameless_event] false)
           (Some (ErrWrap "get adapter id" (ErrNew "invalid adapter path"))));
    try reflexivity.
  exists Canceled. cbn. auto.
Defined.

Lemma exits_after_enough_steps
    (cli : Bctl) (evs : list DeviceDiscovered) (c : bool) (sched : list actor) :
  0 < count (carries_target cli) evs ->
  first_target cli evs + 4 <= count is_scanner sched ->
  at_pc (run cli sched (started (mkStream evs c))) = PcExited.
Proof.
  intros Hsome Hsched.
  destruct (first_target_split cli evs Hsome) as (pre & ev & Heq & Hpre & Hev & Hlen).
  rewrite <- Hlen in *.
  set (post := skipn (S (List.length pre)) evs) in *. clearbody post.
  pose proof (view_run cli sched (started (mkStream evs c))) as Hv.
  rewrite view_started in Hv. cbn [values closed] in Hv.
  replace (count is_scanner sched)
    with (S (List.length pre + 3 + (count is_scanner sched - List.length pre - 4)))
    in Hv by lia.
  rewrite Nat.iter_succ_r in Hv. cbn [scan_next] in Hv.
  rewrite Heq, (scan_to_match cli pre ev post c 0 _ Hpre Hev) in Hv.
  rewrite <- Heq in Hv. unfold view_of in Hv. now injection Hv.
Qed.

Lemma Wait_done (ctx : Context) (pick : nat) (st : sys) :
  discoveryDone st = true -> exists r, Wait ctx pick st = (WaitReturned r, st).
Proof.
  intros Hd. unfold Wait, wait_select.
  destruct (go_select_ready (wait_ready ctx st) pick) as [c Hc].
  - unfold wait_ready. rewrite Hd. destruct (ctx_Done ctx); discriminate.
  - rewrite Hc. destruct c; eexists; reflexivity.
Qed.

Lemma Wait_blocking_until_done (cli : Bctl) (pick : nat) (n : nat) :
  forall (ctx : Context) (st : sys) (m : nat),
    discoveryDone (run cli (repeat Scanner n) st) = true ->
    n <= m ->
    exists r st', Wait_blocking cli ctx pick (repeat Progress m) st
                  = (WaitReturned r, st').
Proof.
  induction n as [|n IH]; intros ctx st m Hd Hm.
  - destruct (Wait_done ctx pick st Hd) as [r Hw].
    exists r, st. now apply Wait_blocking_first.
  - destruct m as [|m]; [lia|]. cbn [repeat Wait_blocking].
    destruct (Wait ctx pick st) as [[|r] st0]; [|now exists r, st0].
    apply IH; [|lia]. now rewrite <- run_scanner_succ.
Qed.

(** X20.  The action returns once the device has been discovered: if the
    target is in the stream and the goroutine gets the steps to reach it and
    to run its deferred calls, the deferred [Wait] is released and the action
    returns what [Connect] returned, with the scan stopped; this holds after
    a failed [Connect] as after a successful one. *)
Theorem action_returns_after_discovery
    (w : World) (a : Adapter1) (evs : list DeviceDiscovered) (c : bool)
    (r : option error) (m : nat) :
  w_adapter w = Ok a ->
  w_discover w = Ok (mkStream evs c) ->
  result_of (Connect (mkBctl (w_mac w) a) (w_ctx w) (w_script w)) = Returned r ->
  0 < count (carries_target (mkBctl (w_mac w) a)) evs ->
  w_waiting w = repeat Progress m ->
  first_target (mkBctl (w_mac w) a) evs + 4 <= w_during_connect w + m ->
  exists st, Action w = Exit r (Some st) /\ stop_calls st = 1.
Proof.
  intros Ha Hd Hres Hsome Hwait Hsteps.
  unfold Action, Init. rewrite Ha, Hd. cbn [Discover].
  set (cli := mkBctl (w_mac w) a) in *. rewrite Hres.
  set (s := mkStream evs c).
  assert (Hgen : forall sched1,
    count is_scanner sched1 = w_during_connect w ->
    exists st, deferred cli w (Connect_ctx cli (w_ctx w) (w_script w)) r
                 (run cli sched1 (started s))
               = Exit r (Some st) /\ stop_calls st = 1).
  { intros sched1 Hcount.
    assert (Hi : Inv (run cli sched1 (started s))) by apply Inv_run, Inv_started.
    destruct (deferred_cases cli w (Connect_ctx cli (w_ctx w) (w_script w)) r _ Hi)
      as [(st' & Heq & Hi' & Ho)|(st' & Heq & _)].
    - exists st'. split; [exact Heq | now apply stopped_once].
    - exfalso. unfold deferred in Heq. rewrite Hwait in Heq.
      destruct (Wait_blocking_until_done cli (w_pick w) m
                  (Connect_ctx cli (w_ctx w) (w_script w))
                  (run cli sched1 (started s)) m) as (r' & st'' & Hw); [|lia|].
      + rewrite <- run_concat.
        apply (done_closed_iff_exited cli s (sched1 ++ repeat Scanner m)).
        apply exits_after_enough_steps; [exact Hsome|].
        rewrite count_app, Hcount.
        replace (count is_scanner (repeat Scanner m)) with m; [exact Hsteps|].
        clear. induction m as [|m IH]; [reflexivity|].
        unfold count in *. cbn. now rewrite <- IH.
      + rewrite Hw in Heq. discriminate. }
  assert (Hrep : count is_scanner (repeat Scanner (w_during_connect w))
                 = w_during_connect w).
  { generalize (w_during_connect w). intros n.
    induction n as [|n IH]; [reflexivity|].
    unfold count in *. cbn. now rewrite IH. }
  destruct r as [e|].
  - now apply Hgen.
  - replace (cancelOnce (run cli (repeat Scanner (w_during_connect w)) (started s)))
      with (run cli (repeat Scanner (w_during_connect w) ++ [Caller]) (started s))
      by apply run_snoc.
    apply Hgen. rewrite count_app, Hrep. unfold count. cbn. lia.
Qed.

Lemma action_returns_after_discovery_witness :
  let w := mkWorld scenario_target (Ok broken_adapter)
                   (Ok (mkStream scenario_events false))
                   (mkContext None) [] 1 0 (repeat Progress 5) 0 in
  exists st,
    Action w = Exit (Some (ErrWrap "get adapter id" (ErrNew "invalid adapter path")))
                    (Some st) /\
    stop_calls st = 1.
Proof.
  intros w.
  apply (action_returns_after_discovery w broken_adapter scenario_events false
           (Some (ErrWrap "get adapter id" (ErrNew "invalid adapter path"))) 5);
    try reflexivity; vm_compute; lia.
Defined.
